(** * Beauty_Score: the scoring and uncertainty engine of [src/App.tsx]

    A shallow embedding of the numeric core of the application
    (symmetry score, golden-ratio score, composite indices, feedback text,
    landmark jitter and bootstrap, quality checks, crop rectangle, median of
    several detections) together with the properties its specification
    states about it and further properties read off the code.

    Number model.  A JavaScript [number] that the program reads as input
    (a landmark coordinate, an image size, a score handed to
    [computeOverall], a jitter amplitude) is a real number of [R];
    arithmetic is exact, the rounding error of IEEE doubles is not
    modelled.  The one non-real value the program can
    manufacture from real inputs is [NaN] ([Math.pow] of a negative base,
    [0 / 0] on an empty sample), so every value downstream of such an
    operation has type [number], which adds [NaN] to [R].  A thrown
    [TypeError] (reading a field of [undefined]) is [None].

    Where the rounding of doubles decides a statement (the statistics of
    [withUncertainty] on identical samples), the functions involved are
    transcribed a second time over binary64 floats, operation for
    operation, under names that end in [64]. *)

From Stdlib Require Import Floats.
From Stdlib Require Uint63.
From Stdlib Require Import Reals Lra Lia ZArith Bool List String Ascii Zfloor.
From Stdlib Require Import Permutation Sorted.
Import ListNotations.

Open Scope bool_scope.
Open Scope R_scope.

(** ** JavaScript numbers and the [Math] functions the program calls *)

Inductive number : Type :=
| Num (r : R)
| NaN.

Definition n_lift1 (f : R -> R) (a : number) : number :=
  match a with Num r => Num (f r) | NaN => NaN end.

Definition n_lift2 (f : R -> R -> R) (a b : number) : number :=
  match a, b with Num r, Num s => Num (f r s) | _, _ => NaN end.

Definition n_add : number -> number -> number := n_lift2 Rplus.
Definition n_sub : number -> number -> number := n_lift2 Rminus.
Definition n_mul : number -> number -> number := n_lift2 Rmult.

(** The comparison operators [>], [<], [<=], [>=] on real operands. *)
Definition js_gt (a b : R) : bool := if Rlt_dec b a then true else false.
Definition js_lt (a b : R) : bool := if Rlt_dec a b then true else false.
Definition js_le (a b : R) : bool := if Rle_dec a b then true else false.
Definition js_ge (a b : R) : bool := if Rle_dec b a then true else false.

(** [Math.max] and [Math.min] return [NaN] as soon as one argument is [NaN]. *)
Definition n_max : number -> number -> number := n_lift2 Rmax.
Definition n_min : number -> number -> number := n_lift2 Rmin.

(** [a / n] where [n] is the length of an array; [0 / 0] is [NaN].
    The only division by a length that can meet [0] is the one of
    [withUncertainty], whose numerator is then the empty sum [0]. *)
Definition n_div_length (a : number) (n : nat) : number :=
  match n with
  | O => NaN
  | S _ => n_lift1 (fun r => r / INR n) a
  end.

(** [Math.sqrt]: [NaN] below zero. *)
Definition Math_sqrt (a : number) : number :=
  match a with
  | Num r => if Rlt_dec r 0 then NaN else Num (sqrt r)
  | NaN => NaN
  end.

(** [Math.round]: the nearest integer, halves going up. *)
Definition Math_round (v : R) : R := IZR (Zfloor (v + / 2)).

(** [Math.hypot] on two arguments. *)
Definition Math_hypot (a b : R) : R := sqrt (a * a + b * b).

(** [Math.pow base e] for a positive exponent that is not an integer
    (the program's only exponent is [1.8]): the real power on a positive
    base, [0] at [0], and [NaN] on a negative base. *)
Definition Math_pow (base e : R) : number :=
  if Rlt_dec 0 base then Num (Rpower base e)
  else if Req_dec_T base 0 then Num 0
  else NaN.

(** ** Option as the exception monad *)

Definition obind {A B : Type} (m : option A) (k : A -> option B) : option B :=
  match m with Some a => k a | None => None end.

Notation "v <- m ;; k" := (obind m (fun v => k))
  (at level 61, m at next level, right associativity).

Fixpoint mapM {A B : Type} (f : A -> option B) (l : list A) : option (list B) :=
  match l with
  | [] => Some []
  | a :: l' => b <- f a ;; bs <- mapM f l' ;; Some (b :: bs)
  end.

(** ** Helpers of [App.tsx], lines 66-70 *)

Definition clamp (v lo hi : R) : R := Rmin hi (Rmax lo v).
Definition n_clamp (v : number) (lo hi : R) : number :=
  n_min (Num hi) (n_max (Num lo) v).

Definition round1 (v : R) : R := Math_round (v * 10) / 10.
Definition round2 (v : R) : R := Math_round (v * 100) / 100.
Definition round3 (v : R) : R := Math_round (v * 1000) / 1000.
Definition n_round1 : number -> number := n_lift1 round1.

Definition euclid (p1 p2 : R * R) : R :=
  Math_hypot (fst p1 - fst p2) (snd p1 - snd p2).

(** ** Landmarks *)

Module LM.
Record t : Type := mk { x : R; y : R; z : option R }.
End LM.

(** [lms[idx]] yields [undefined] out of range; reading [.x] of it throws. *)
Definition at_index (lms : list LM.t) (idx : nat) : option LM.t :=
  nth_error lms idx.

(** ** Methodology constants, lines 8-14 *)

Module METHODOLOGY.
Module weights.
Definition symmetry : R := 0.35.
Definition golden : R := 0.25.
Definition harmony : R := 0.40.
End weights.
Module eyeSpacing.
Definition idealMin : R := 0.28.
Definition idealMax : R := 0.36.
Definition low : R := 0.26.
Definition high : R := 0.38.
End eyeSpacing.
Module quality.
Definition blurVarMin : R := 1500.
Definition luminanceMin : R := 60.
Definition luminanceMax : R := 200.
End quality.
Module uncertainty.
Definition repeats : nat := 40.
Definition jitterSigma : R := 0.003.
End uncertainty.
End METHODOLOGY.

(** ** Symmetry score, lines 72-82 *)

Definition symmetricPairs : list (nat * nat) :=
  [ (234, 454); (93, 323); (132, 361); (58, 288); (127, 356);
    (50, 280); (101, 330); (205, 425); (98, 327); (55, 285);
    (65, 295); (107, 336); (52, 282); (66, 296); (3, 13) ]%nat.

Definition pairDiff (landmarks : list LM.t) (ij : nat * nat) : option R :=
  pi <- at_index landmarks (fst ij) ;;
  pj <- at_index landmarks (snd ij) ;;
  Some (Rabs (LM.x pi - (1 - LM.x pj))).

Definition sum (l : list R) : R := fold_left (fun a b => a + b) l 0.

Definition calcSymmetryScore (landmarks : list LM.t) : option R :=
  diffs <- mapM (pairDiff landmarks) symmetricPairs ;;
  let mean := sum diffs / INR (List.length diffs) in
  Some (Rmax 0 (Math_round ((100 - mean * 1000) * 100) / 100)).

(** ** Golden-ratio analysis, lines 84-157 *)

Definition project (idx : nat) (w h : R) (lms : list LM.t) : option (R * R) :=
  p <- at_index lms idx ;;
  Some (LM.x p * w, LM.y p * h).

(** A [Record<string, number>]: the entries in insertion order. *)
Definition dict (V : Type) : Type := list (string * V).

Fixpoint lookup {V : Type} (k : string) (d : dict V) : option V :=
  match d with
  | [] => None
  | (k', v) :: d' => if String.eqb k k' then Some v else lookup k d'
  end.

Inductive value : Type :=
| VNum (v : R)
| VRec (d : dict R).

Record GoldenOut : Type := mkGoldenOut {
  score : R;
  values : dict value;
  faceWidth : R;
  eyeDist : R;
  eyeL : R * R;
  eyeR : R * R;
  ratios : dict R;
  targets : dict R
}.

(** The six distances of lines 113-118, with the two eye points. *)
Record Measures : Type := mkMeasures {
  m_faceLength : R;
  m_faceWidth : R;
  m_eyeDist : R;
  m_mouthWidth : R;
  m_noseToChin : R;
  m_lipHeight : R;
  m_eyeL : R * R;
  m_eyeR : R * R
}.

Definition measure (imageW imageH : R) (lms : list LM.t) : option Measures :=
  top <- project 10 imageW imageH lms ;;
  bottom <- project 152 imageW imageH lms ;;
  left <- project 234 imageW imageH lms ;;
  right <- project 454 imageW imageH lms ;;
  eyeL <- project 133 imageW imageH lms ;;
  eyeR <- project 362 imageW imageH lms ;;
  mouthL <- project 61 imageW imageH lms ;;
  mouthR <- project 291 imageW imageH lms ;;
  nose <- project 1 imageW imageH lms ;;
  chin <- project 152 imageW imageH lms ;;
  lipU <- project 13 imageW imageH lms ;;
  lipD <- project 14 imageW imageH lms ;;
  Some {| m_faceLength := euclid top bottom;
          m_faceWidth := euclid left right;
          m_eyeDist := euclid eyeL eyeR;
          m_mouthWidth := euclid mouthL mouthR;
          m_noseToChin := euclid nose chin;
          m_lipHeight := euclid lipU lipD;
          m_eyeL := eyeL;
          m_eyeR := eyeR |}.

(** [den > 0 ? num / den : 0] *)
Definition ratio (num den : R) : R :=
  if js_gt den 0 then num / den else 0.

Definition k_lengthWidth : string := "Rapport Longueur/ Largeur du visage".
Definition k_eyeMouth : string := "Distance inter-oculaire / Largeur bouche".
Definition k_eyeFace : string := "Distance inter-oculaire / Largeur visage".
Definition k_noseChin : string := "Nez→Menton / Longueur visage".
Definition k_lipMouth : string := "Hauteur lèvres / Largeur bouche".

Definition ratiosOf (m : Measures) : dict R :=
  [ (k_lengthWidth, ratio (m_faceLength m) (m_faceWidth m));
    (k_eyeMouth, ratio (m_eyeDist m) (m_mouthWidth m));
    (k_eyeFace, ratio (m_eyeDist m) (m_faceWidth m));
    (k_noseChin, ratio (m_noseToChin m) (m_faceLength m));
    (k_lipMouth, ratio (m_lipHeight m) (m_mouthWidth m)) ].

Definition goldenTargets : dict R :=
  [ (k_lengthWidth, 1.618);
    (k_eyeMouth, 1.618);
    (k_eyeFace, 0.32);
    (k_noseChin, 0.618);
    (k_lipMouth, 0.2) ].

(** One entry of [relErrors], lines 136-140: the callback is run on
    every key [k] of [ratios], where [ratios[k]] is the entry's own value.
    A key absent from [targets] reads as [undefined], and [undefined > 0]
    is false. *)
Definition relError (ts : dict R) (entry : string * R) : R :=
  let (k, val) := entry in
  match lookup k ts with
  | Some ideal => if js_gt ideal 0 then Rabs (val - ideal) / ideal else 1
  | None => 1
  end.

Definition relErrors (rs ts : dict R) : list R := map (relError ts) rs.

(** Lines 142-143. *)
Definition goldenScore (errs : list R) : R :=
  let avgDev := sum errs / INR (List.length errs) in
  Math_round (100 * exp (-5 * avgDev) * 100) / 100.

Definition valuesOf (m : Measures) (score : R) (rs : dict R) : dict value :=
  [ ("Longueur du visage", VNum (round2 (m_faceLength m)));
    ("Largeur du visage", VNum (round2 (m_faceWidth m)));
    ("Distance inter-oculaire", VNum (round2 (m_eyeDist m)));
    ("Largeur de la bouche", VNum (round2 (m_mouthWidth m)));
    ("Nez→Menton", VNum (round2 (m_noseToChin m)));
    ("Hauteur des lèvres", VNum (round2 (m_lipHeight m)));
    ("Score Nombre d’Or", VNum score);
    ("Ratios évalués", VRec (map (fun kv => (fst kv, round3 (snd kv))) rs)) ]%string.

Definition analyzeGolden (imageW imageH : R) (lms : list LM.t) : option GoldenOut :=
  m <- measure imageW imageH lms ;;
  let rs := ratiosOf m in
  let ts := goldenTargets in
  let sc := goldenScore (relErrors rs ts) in
  Some {| score := sc;
          values := valuesOf m sc rs;
          faceWidth := m_faceWidth m;
          eyeDist := m_eyeDist m;
          eyeL := m_eyeL m;
          eyeR := m_eyeR m;
          ratios := rs;
          targets := ts |}.

(** ** Feedback text, lines 189-208 *)

Definition newline : string := String (ascii_of_nat 10) EmptyString.

Definition fb_symHigh : string :=
  "Symétrie faciale très élevée — indicateur de régularité morphologique.".
Definition fb_symGood : string :=
  "Symétrie globalement bonne avec de légères asymétries naturelles.".
Definition fb_symLow : string :=
  "Asymétries plus marquées — fréquentes et non pathologiques.".
Definition fb_goldHigh : string :=
  "Proportions très proches du nombre d’or.".
Definition fb_goldGood : string :=
  "Légères déviations par rapport au nombre d’or, sans conséquence esthétique directe.".
Definition fb_goldLow : string :=
  "Proportions éloignées du nombre d’or — rappel : la beauté ne se réduit pas à un ratio.".
Definition fb_eyeIdeal : string :=
  "Espacement inter-oculaire dans une plage considérée harmonieuse.".
Definition fb_eyeNarrow : string :=
  "Espacement inter-oculaire relativement réduit (aspect plus concentré).".
Definition fb_eyeWide : string :=
  "Espacement inter-oculaire relativement large (impression plus ouverte).".
Definition fb_disclaimer : string :=
  "Remarque : ces indicateurs sont descriptifs. La perception esthétique reste multidimensionnelle.".

(** The array [lines] just before [lines.join]. *)
Definition feedbackLines (symmetry golden eyeSpacingRatio : R) : list string :=
  let es_idealMin := METHODOLOGY.eyeSpacing.idealMin in
  let es_idealMax := METHODOLOGY.eyeSpacing.idealMax in
  let es_low := METHODOLOGY.eyeSpacing.low in
  let es_high := METHODOLOGY.eyeSpacing.high in
  let l1 :=
    if js_gt symmetry 90 then [fb_symHigh]
    else if js_gt symmetry 75 then [fb_symGood]
    else [fb_symLow] in
  let l2 :=
    if js_gt golden 90 then [fb_goldHigh]
    else if js_gt golden 75 then [fb_goldGood]
    else [fb_goldLow] in
  let l3 :=
    if js_gt eyeSpacingRatio 0 then
      if js_gt eyeSpacingRatio es_idealMin && js_lt eyeSpacingRatio es_idealMax
      then [fb_eyeIdeal]
      else if js_le eyeSpacingRatio es_low then [fb_eyeNarrow]
      else if js_ge eyeSpacingRatio es_high then [fb_eyeWide]
      else []
    else [] in
  l1 ++ l2 ++ l3 ++ [fb_disclaimer].

Definition buildFeedback (symmetry golden eyeSpacingRatio : R) : string :=
  String.concat newline (feedbackLines symmetry golden eyeSpacingRatio).

(** ** Composite indices, lines 159-187 *)

Record OverallOut : Type := mkOverallOut {
  harmony : R;
  overall : number;
  uniqueness : R;
  feedback : string
}.

(** Lines 161-170: the pair [(eyeScore, eyeSpacingRatio)] once the [if]
    has run. *)
Definition eyeSpacingOf (faceWidth eyeDist : R) : R * R :=
  if js_gt faceWidth 0 then
    let eyeSpacingRatio := eyeDist / faceWidth in
    if js_gt eyeSpacingRatio METHODOLOGY.eyeSpacing.idealMin
       && js_lt eyeSpacingRatio METHODOLOGY.eyeSpacing.idealMax
    then (100, eyeSpacingRatio)
    else if js_le eyeSpacingRatio METHODOLOGY.eyeSpacing.low
            || js_ge eyeSpacingRatio METHODOLOGY.eyeSpacing.high
    then (60, eyeSpacingRatio)
    else (80, eyeSpacingRatio)
  else (75, 0).

(** Lines 160, 171, 173: the local [harmony], before rounding. *)
Definition harmonyOf (symmetry golden eyeScore : R) : R :=
  let base := 0.4 * symmetry + 0.4 * golden in
  let base := base + 0.2 * eyeScore in
  clamp base 20 100.

(** Line 174: the local [weighted]. *)
Definition weightedOf (symmetry golden harmony : R) : R :=
  METHODOLOGY.weights.symmetry * symmetry
  + METHODOLOGY.weights.golden * golden
  + METHODOLOGY.weights.harmony * harmony.

(** Lines 175-177: the local [overall], before rounding. *)
Definition overallOf (symmetry golden harmony : R) : number :=
  let weighted := weightedOf symmetry golden harmony in
  let raw := weighted / 100 in
  let scaled := Math_pow raw 1.8 in
  n_clamp (n_add (Num 4) (n_mul scaled (Num 9))) 1 10.

(** Lines 179-183: the local [uniqueness], before rounding. *)
Definition uniquenessOf (symmetry golden harmony : R) : R :=
  let asymFactor := Rabs (50 - symmetry) / 50 in
  let goldenDev := Rabs (60 - golden) / 60 in
  let harmVar := Rabs (70 - harmony) / 70 in
  let uniqRaw := 0.4 * asymFactor + 0.3 * goldenDev + 0.3 * harmVar in
  clamp (5 + 4 * uniqRaw) 1 10.

Definition computeOverall (symmetry golden faceWidth eyeDist : R) : OverallOut :=
  let (eyeScore, eyeSpacingRatio) := eyeSpacingOf faceWidth eyeDist in
  let h := harmonyOf symmetry golden eyeScore in
  let fb := buildFeedback symmetry golden eyeSpacingRatio in
  {| harmony := round2 h;
     overall := n_round1 (overallOf symmetry golden h);
     uniqueness := round1 (uniquenessOf symmetry golden h);
     feedback := fb |}.

(** ** Jitter and bootstrap, lines 303-315 *)

(** The results of the successive calls of [Math.random], each in [0,1). *)
Definition Rng : Type := nat -> R.

Definition rng_ok (g : Rng) : Prop := forall n, 0 <= g n < 1.

Definition Math_random (g : Rng) : R * Rng := (g O, fun n => g (S n)).

Definition rnd (sigma : R) (g : Rng) : R * Rng :=
  let (u, g') := Math_random g in ((u * 2 - 1) * sigma, g').

(** The callback of [lms.map]: [x] draws before [y]. *)
Definition jitterPoint (sigma : R) (p : LM.t) (g : Rng) : LM.t * Rng :=
  let (dx, g1) := rnd sigma g in
  let (dy, g2) := rnd sigma g1 in
  (LM.mk (clamp (LM.x p + dx) 0 1) (clamp (LM.y p + dy) 0 1) (LM.z p), g2).

Fixpoint mapRng {A B : Type} (f : A -> Rng -> B * Rng) (l : list A) (g : Rng)
  : list B * Rng :=
  match l with
  | [] => ([], g)
  | a :: l' =>
      let (b, g1) := f a g in
      let (bs, g2) := mapRng f l' g1 in
      (b :: bs, g2)
  end.

Definition jitterLandmarks (lms : list LM.t) (sigma : R) (g : Rng)
  : list LM.t * Rng :=
  mapRng (jitterPoint sigma) lms g.

Definition n_sum (l : list number) : number :=
  fold_left (fun a b => n_add a b) l (Num 0).

(** A [calcOnce] closure: it may draw random numbers and may throw; on
    success it hands back its [scalar]. *)
Definition Calc : Type := Rng -> option (number * Rng).

(** The [for] loop of [withUncertainty], pushing onto [vals]. *)
Fixpoint collect (calcOnce : Calc) (repeats : nat) (vals : list number) (g : Rng)
  : option (list number * Rng) :=
  match repeats with
  | O => Some (vals, g)
  | S n =>
      r <- calcOnce g ;;
      collect calcOnce n (vals ++ [fst r]) (snd r)
  end.

Record Uncertainty : Type := mkUncertainty {
  mean : number;
  sd : number;
  ci95 : number
}.

Definition statsOf (vals : list number) : Uncertainty :=
  let mean := n_div_length (n_sum vals) (List.length vals) in
  let sq := fold_left
              (fun a b => n_add a (n_mul (n_sub b mean) (n_sub b mean)))
              vals (Num 0) in
  let sd := Math_sqrt (n_div_length sq (List.length vals)) in
  {| mean := mean; sd := sd; ci95 := n_mul (Num 1.96) sd |}.

Definition withUncertainty (calcOnce : Calc) (repeats : nat) (g : Rng)
  : option (Uncertainty * Rng) :=
  r <- collect calcOnce repeats [] g ;;
  Some (statsOf (fst r), snd r).

(** The five closures of [analyze], lines 425-454. *)
Section Bootstrap.
Variables (useW useH : R) (baseLm : list LM.t) (sigma : R).

Definition symCalc : Calc := fun g =>
  let (lm, g') := jitterLandmarks baseLm sigma g in
  s <- calcSymmetryScore lm ;;
  Some (Num s, g').

Definition goldCalc : Calc := fun g =>
  let (lm, g') := jitterLandmarks baseLm sigma g in
  gd <- analyzeGolden useW useH lm ;;
  Some (Num (score gd), g').

(** The part shared by the last three closures. *)
Definition overallCalc (field : OverallOut -> number) : Calc := fun g =>
  let (lm, g') := jitterLandmarks baseLm sigma g in
  gd <- analyzeGolden useW useH lm ;;
  s <- calcSymmetryScore lm ;;
  Some (field (computeOverall s (score gd) (faceWidth gd) (eyeDist gd)), g').

Definition symCI (rep : nat) := withUncertainty symCalc rep.
Definition goldCI (rep : nat) := withUncertainty goldCalc rep.
Definition harmCI (rep : nat) :=
  withUncertainty (overallCalc (fun o => Num (harmony o))) rep.
Definition overallCI (rep : nat) :=
  withUncertainty (overallCalc overall) rep.
Definition uniqCI (rep : nat) :=
  withUncertainty (overallCalc (fun o => Num (uniqueness o))) rep.
End Bootstrap.

(** ** Keypoints of the detector, line 416 of [analyze]

    [keypoints.map(k => ({ x: k.x / useW, y: k.y / useH }))].  The frame
    sizes are not zero (the aligned canvas is 800 wide); a division by zero
    is outside the number model. *)

Record Keypoint : Type := mkKeypoint { kx : R; ky : R }.

Definition normalizeKeypoints (useW useH : R) (kps : list Keypoint) : list LM.t :=
  map (fun k => LM.mk (kx k / useW) (ky k / useH) None) kps.

(** ** Quality checks, lines 217-244

    The pixel buffer of [getImageData]: four bytes per pixel, row after
    row.  Reading past the end of [data] yields [undefined], on which
    arithmetic gives [NaN]. *)

Record ImageData : Type := mkImageData {
  data : list Z;
  width : nat;
  height : nat
}.

Definition byteAt (d : list Z) (i : nat) : number :=
  match nth_error d i with
  | Some b => Num (IZR b)
  | None => NaN
  end.

Definition n_abs : number -> number := n_lift1 Rabs.

(** [a > b] and [a < b] with a possibly [NaN] left operand: false on [NaN]. *)
Definition n_gt (a : number) (b : R) : bool :=
  match a with Num r => js_gt r b | NaN => false end.
Definition n_lt (a : number) (b : R) : bool :=
  match a with Num r => js_lt r b | NaN => false end.

(** The body of the inner loop up to [g], at the pixel [(x, y)].  The loops
    only visit [x >= 1] and [y >= 1], where [i - 4] and [i - w * 4] are not
    negative. *)
Definition gradAt (d : list Z) (w x y : nat) : number :=
  let i := ((y * w + x) * 4)%nat in
  let dx := n_sub (byteAt d (i + 0)) (byteAt d (i - 4)) in
  let dy := n_sub (byteAt d (i + 0)) (byteAt d (i - w * 4)) in
  n_add (n_abs dx) (n_abs dy).

(** The pixels the two nested loops visit, in their order:
    [1 <= y < height - 1], then [1 <= x < width - 1]. *)
Definition interior (w h : nat) : list (nat * nat) :=
  flat_map (fun y => map (fun x => (x, y)) (seq 1 (w - 2))) (seq 1 (h - 2)).

(** The gradient magnitudes in the order they are accumulated. *)
Definition gradients (img : ImageData) : list number :=
  map (fun xy => gradAt (data img) (width img) (fst xy) (snd xy))
      (interior (width img) (height img)).

(** [sum], [sum2] and [n] after the loops. *)
Definition gradSum (gs : list number) : number :=
  fold_left (fun a g => n_add a g) gs (Num 0).
Definition gradSum2 (gs : list number) : number :=
  fold_left (fun a g => n_add a (n_mul g g)) gs (Num 0).

(** The indices [0, 4, 8, ...] below [len]. *)
Definition redIndices (len : nat) : list nat :=
  map (fun k => (4 * k)%nat) (seq 0 ((len + 3) / 4)).

Definition lumSum (d : list Z) : number :=
  fold_left (fun a i => n_add a (byteAt d i)) (redIndices (List.length d)) (Num 0).

(** [lumSum / (data.length / 4)]; on an empty buffer this is [0 / 0]. *)
Definition n_div_quarter (a : number) (len : nat) : number :=
  match len with
  | O => NaN
  | S _ => n_lift1 (fun r => r / (INR len / 4)) a
  end.

Record Quality : Type := mkQuality {
  blurOK : bool;
  exposureOK : bool;
  variance : number;
  luminance : number
}.

Definition qualityChecks (img : ImageData) : Quality :=
  let gs := gradients img in
  let n := List.length gs in
  let mean := n_div_length (gradSum gs) n in
  let variance := n_sub (n_div_length (gradSum2 gs) n) (n_mul mean mean) in
  let luminance := n_div_quarter (lumSum (data img)) (List.length (data img)) in
  {| blurOK := n_gt variance METHODOLOGY.quality.blurVarMin;
     exposureOK := n_gt luminance METHODOLOGY.quality.luminanceMin
                   && n_lt luminance METHODOLOGY.quality.luminanceMax;
     variance := variance;
     luminance := luminance |}.

(** ** Crop rectangle of [alignAndCrop], lines 257-268

    The rotation and the drawing are canvas operations; what is computed
    is the source rectangle [(x, y, bw, bh)] and the size of the output
    canvas.  [canvas.width] and [canvas.height] are [unsigned long]
    attributes: the number assigned is converted, so the [NaN] of [0 / 0]
    (when [bw] is [0], [bh] is [0] as well) is stored as [0]. *)

(** The conversion of a number to [unsigned long]: [NaN] and the
    infinities give [0], any other number is truncated towards zero and
    reduced modulo [2^32]. *)
Definition toUnsignedLong (v : number) : Z :=
  match v with
  | NaN => 0%Z
  | Num r => ((if Rle_dec 0 r then Zfloor r else Zceil r) mod 2 ^ 32)%Z
  end.

Record Crop : Type := mkCrop {
  crop_x : R;
  crop_y : R;
  crop_bw : R;
  crop_bh : R;
  canvas_width : Z;
  canvas_height : Z
}.

(** A quotient whose divisor may be [0]: [NaN] stands for [0 / 0] and for
    the infinities alike, which [toUnsignedLong] does not tell apart. *)
Definition n_quot (a b : R) : number :=
  if Req_dec_T b 0 then NaN else Num (a / b).

Definition cropRect (w h : R) (eyeL eyeR : R * R) : Crop :=
  let cx := (fst eyeL + fst eyeR) / 2 in
  let cy := (snd eyeL + snd eyeR) / 2 in
  let d := Math_hypot (fst eyeR - fst eyeL) (snd eyeR - snd eyeL) in
  let size := d * 5.0 in
  let x := clamp (cx - size / 2) 0 (w - size) in
  let y := clamp (cy - size * 0.6) 0 (h - size * 1.1) in
  let bw := Rmin (w - x) size in
  let bh := Rmin (h - y) (size * 1.1) in
  {| crop_x := x; crop_y := y; crop_bw := bw; crop_bh := bh;
     canvas_width := toUnsignedLong (Num 800);
     canvas_height :=
       toUnsignedLong (n_lift1 (fun q => Math_round (800 * q)) (n_quot bh bw)) |}.

(** ** Median of several detections, lines 274-301

    [detections] holds what [estimateFaces] answered on each frame:
    [None] when no face was found.  The waiting between frames is not
    modelled. *)

(** [.sort((a, b) => a - b)]: ascending numeric order. *)
Fixpoint insertNum (a : R) (l : list R) : list R :=
  match l with
  | [] => [a]
  | b :: l' => if js_le a b then a :: l else b :: insertNum a l'
  end.

Definition sortNum (l : list R) : list R := fold_right insertNum [] l.

(** One turn of the loop over [p].  [a[p].x] throws when a frame is shorter
    than the first one.  [all] is not empty here, so [mid] is a valid index
    and the default of [nth] is never read. *)
Definition medianPoint (all : list (list LM.t)) (p : nat) : option LM.t :=
  pts <- mapM (fun a => at_index a p) all ;;
  let xs := sortNum (map LM.x pts) in
  let ys := sortNum (map LM.y pts) in
  let mid := (List.length xs / 2)%nat in
  Some (LM.mk (nth mid xs 0) (nth mid ys 0) None).

(** Lines 291-300: [Some None] is the answer [null]. *)
Definition medianLandmarks (all : list (list LM.t)) : option (option (list LM.t)) :=
  match all with
  | [] => Some None
  | first :: _ =>
      median <- mapM (medianPoint all) (seq 0 (List.length first)) ;;
      Some (Some median)
  end.

Definition estimateStableLandmarks
  (videoWidth videoHeight : R) (detections : list (option (list Keypoint)))
  : option (option (list LM.t)) :=
  let all :=
    flat_map (fun preds =>
                match preds with
                | Some keypoints => [normalizeKeypoints videoWidth videoHeight keypoints]
                | None => []
                end) detections in
  medianLandmarks all.

(** ** The jitter and the bootstrap on doubles

    [jitterLandmarks], [calcSymmetryScore], [withUncertainty] and the
    first closure of [analyze] once more, every [number] being a binary64
    float and every operation the IEEE 754 one that JavaScript performs. *)

#[local] Set Warnings "-inexact-float".

Definition double : Set := float.






Module LM64.
Record t : Type := mk { x : double; y : double; z : option double }.
End LM64.

















(** ** Inputs used to exercise the engine *)

(** A 468-point face on a unit frame, mirrored about [x = 1/2], whose five
    ratios are the five targets: face 0.5 wide and 0.809 long, eyes 0.16
    apart, mouth 80/809 wide, nose 0.499962 above the chin, lips 16/809
    high. *)
Definition idealPoint (i : nat) : LM.t :=
  if Nat.eqb i 10 then LM.mk (1/2) 0 None
  else if Nat.eqb i 152 then LM.mk (1/2) 0.809 None
  else if Nat.eqb i 234 then LM.mk 0.25 (1/2) None
  else if Nat.eqb i 454 then LM.mk 0.75 (1/2) None
  else if Nat.eqb i 133 then LM.mk 0.42 0.4 None
  else if Nat.eqb i 362 then LM.mk 0.58 0.4 None
  else if Nat.eqb i 61 then LM.mk (1/2 - 40/809) 0.7 None
  else if Nat.eqb i 291 then LM.mk (1/2 + 40/809) 0.7 None
  else if Nat.eqb i 1 then LM.mk (1/2) 0.309038 None
  else if Nat.eqb i 13 then LM.mk (1/2) 0.65 None
  else if Nat.eqb i 14 then LM.mk (1/2) (0.65 + 16/809) None
  else LM.mk (1/2) (1/2) None.

Definition idealFace : list LM.t := map idealPoint (seq 0 468).

(** The ideal face measured on the unit frame. *)
Definition idealMeasures : Measures :=
  {| m_faceLength := euclid (1/2 * 1, 0 * 1) (1/2 * 1, 0.809 * 1);
     m_faceWidth := euclid (0.25 * 1, 1/2 * 1) (0.75 * 1, 1/2 * 1);
     m_eyeDist := euclid (0.42 * 1, 0.4 * 1) (0.58 * 1, 0.4 * 1);
     m_mouthWidth := euclid ((1/2 - 40/809) * 1, 0.7 * 1) ((1/2 + 40/809) * 1, 0.7 * 1);
     m_noseToChin := euclid (1/2 * 1, 0.309038 * 1) (1/2 * 1, 0.809 * 1);
     m_lipHeight := euclid (1/2 * 1, 0.65 * 1) (1/2 * 1, (0.65 + 16/809) * 1);
     m_eyeL := (0.42 * 1, 0.4 * 1);
     m_eyeR := (0.58 * 1, 0.4 * 1) |}.

(** A face collapsed onto one point. *)
Definition flatFace (cx cy : R) : list LM.t := repeat (LM.mk cx cy None) 468.

(** A random source that always answers [0]. *)
Definition zeroRng : Rng := fun _ => 0.



(** ** Fixed-point squaring, for enclosing [exp (-5)]

    Numbers are numerators over the scale [expScale]; [sqUp] and [sqDn]
    square one and round it up or down. *)

Definition expScale : Z := (10 ^ 15)%Z.

Definition sqUp (a : Z) : Z := ((a * a + expScale - 1) / expScale)%Z.
Definition sqDn (a : Z) : Z := ((a * a) / expScale)%Z.

Fixpoint iterSq (sq : Z -> Z) (k : nat) (a : Z) : Z :=
  match k with
  | O => a
  | S k' => iterSq sq k' (sq a)
  end.

(** ** Vocabulary of the statements *)

(** Every index of [symmetricPairs] holds a landmark. *)
Definition pairsDefined (lms : list LM.t) : Prop :=
  Forall (fun ij => (fst ij < List.length lms)%nat
                    /\ (snd ij < List.length lms)%nat) symmetricPairs.

(** Every bilateral pair [(i, j)] has [x_i = 1 - x_j]. *)
Definition mirrored (lms : list LM.t) : Prop :=
  Forall (fun ij => forall pi pj,
            at_index lms (fst ij) = Some pi ->
            at_index lms (snd ij) = Some pj ->
            LM.x pi = 1 - LM.x pj) symmetricPairs.

(** Both coordinates of a landmark lie in [0,1]. *)
Definition inUnit (p : LM.t) : Prop :=
  0 <= LM.x p <= 1 /\ 0 <= LM.y p <= 1.

(** The five bootstraps that [analyze] runs, in its order. *)
Definition bootstraps (useW useH : R) (baseLm : list LM.t) (sigma : R) (rep : nat)
  : list (Rng -> option (Uncertainty * Rng)) :=
  [ symCI baseLm sigma rep;
    goldCI useW useH baseLm sigma rep;
    harmCI useW useH baseLm sigma rep;
    overallCI useW useH baseLm sigma rep;
    uniqCI useW useH baseLm sigma rep ].






(** The landmark mirrored about the vertical line [x = 1/2]. *)
Definition flipX (p : LM.t) : LM.t := LM.mk (1 - LM.x p) (LM.y p) (LM.z p).

(** The third group of lines of [buildFeedback]: the eye-spacing sentence,
    if any. *)
Definition eyeSentences (eyeSpacingRatio : R) : list string :=
  if js_gt eyeSpacingRatio 0 then
    if js_gt eyeSpacingRatio METHODOLOGY.eyeSpacing.idealMin
       && js_lt eyeSpacingRatio METHODOLOGY.eyeSpacing.idealMax
    then [fb_eyeIdeal]
    else if js_le eyeSpacingRatio METHODOLOGY.eyeSpacing.low then [fb_eyeNarrow]
    else if js_ge eyeSpacingRatio METHODOLOGY.eyeSpacing.high then [fb_eyeWide]
    else []
  else [].

(** A closure that never throws and whose scalar is a real of [lo, hi]. *)
Definition ranged (calc : Calc) (lo hi : R) : Prop :=
  forall g, exists r g', calc g = Some (Num r, g') /\ lo <= r <= hi.

(** A bootstrap that returns real statistics: a mean in [lo, hi], a
    standard deviation in [0, hi - lo], and [ci95 = 1.96 * sd]. *)
Definition returnsWithin
  (ci : Rng -> option (Uncertainty * Rng)) (g : Rng) (lo hi : R) : Prop :=
  exists m s g',
    ci g = Some ({| mean := Num m; sd := Num s; ci95 := Num (1.96 * s) |}, g')
    /\ lo <= m <= hi /\ 0 <= s <= hi - lo.

(** The array [all] of [estimateStableLandmarks]: one normalized frame per
    detection that found a face. *)
Definition detectedFrames
  (videoWidth videoHeight : R) (detections : list (option (list Keypoint)))
  : list (list LM.t) :=
  flat_map (fun preds =>
              match preds with
              | Some keypoints => [normalizeKeypoints videoWidth videoHeight keypoints]
              | None => []
              end) detections.

(** ** Properties *)

(** *** Comparisons *)

Lemma js_gt_true a b : js_gt a b = true <-> b < a.
Proof. unfold js_gt; destruct (Rlt_dec b a); split; intros; try easy; lra. Qed.

Lemma js_gt_false a b : js_gt a b = false <-> a <= b.
Proof. unfold js_gt; destruct (Rlt_dec b a); split; intros; try easy; lra. Qed.

Lemma js_lt_true a b : js_lt a b = true <-> a < b.
Proof. unfold js_lt; destruct (Rlt_dec a b); split; intros; try easy; lra. Qed.

Lemma js_lt_false a b : js_lt a b = false <-> b <= a.
Proof. unfold js_lt; destruct (Rlt_dec a b); split; intros; try easy; lra. Qed.

Lemma js_le_true a b : js_le a b = true <-> a <= b.
Proof. unfold js_le; destruct (Rle_dec a b); split; intros; try easy; lra. Qed.

Lemma js_le_false a b : js_le a b = false <-> b < a.
Proof. unfold js_le; destruct (Rle_dec a b); split; intros; try easy; lra. Qed.

Lemma js_ge_true a b : js_ge a b = true <-> b <= a.
Proof. unfold js_ge; destruct (Rle_dec b a); split; intros; try easy; lra. Qed.

Lemma js_ge_false a b : js_ge a b = false <-> a < b.
Proof. unfold js_ge; destruct (Rle_dec b a); split; intros; try easy; lra. Qed.

(** *** Rounding and clamping *)

Lemma Math_round_IZR (k : Z) : Math_round (IZR k) = IZR k.
Proof.
  unfold Math_round. f_equal. apply Zfloor_eq. lra.
Qed.

Lemma Math_round_mono a b : a <= b -> Math_round a <= Math_round b.
Proof.
  intros H. unfold Math_round. apply IZR_le, Zfloor_le. lra.
Qed.

Lemma Math_round_between (k : Z) v :
  IZR k - / 2 <= v < IZR k + / 2 -> Math_round v = IZR k.
Proof.
  intros H. unfold Math_round. f_equal. apply Zfloor_eq. lra.
Qed.

Lemma Math_round_bounds (lo hi : Z) v :
  IZR lo <= v <= IZR hi -> IZR lo <= Math_round v <= IZR hi.
Proof.
  intros [H1 H2]. split.
  - rewrite <- (Math_round_IZR lo). now apply Math_round_mono.
  - rewrite <- (Math_round_IZR hi). now apply Math_round_mono.
Qed.

Lemma clamp_bounds v lo hi : lo <= hi -> lo <= clamp v lo hi <= hi.
Proof.
  intros H. unfold clamp, Rmin, Rmax.
  destruct (Rle_dec lo v); destruct (Rle_dec hi _); lra.
Qed.

Lemma clamp_id v lo hi : lo <= v <= hi -> clamp v lo hi = v.
Proof.
  intros H. unfold clamp, Rmin, Rmax.
  destruct (Rle_dec lo v); destruct (Rle_dec hi _); lra.
Qed.

Lemma clamp_below v lo hi : lo <= hi -> v <= lo -> clamp v lo hi = lo.
Proof.
  intros H1 H2. unfold clamp, Rmin, Rmax.
  destruct (Rle_dec lo v); destruct (Rle_dec hi _); lra.
Qed.

Lemma round2_bounds (lo hi : Z) v :
  IZR lo <= v * 100 <= IZR hi -> IZR lo / 100 <= round2 v <= IZR hi / 100.
Proof.
  intros H. apply Math_round_bounds in H. unfold round2. lra.
Qed.

Lemma round1_bounds (lo hi : Z) v :
  IZR lo <= v * 10 <= IZR hi -> IZR lo / 10 <= round1 v <= IZR hi / 10.
Proof.
  intros H. apply Math_round_bounds in H. unfold round1. lra.
Qed.

(** *** Composite indices *)

Lemma harmonyOf_bounds s g e : 20 <= harmonyOf s g e <= 100.
Proof. unfold harmonyOf. apply clamp_bounds. lra. Qed.

Lemma uniquenessOf_bounds s g h : 1 <= uniquenessOf s g h <= 10.
Proof. unfold uniquenessOf. apply clamp_bounds. lra. Qed.

Lemma Math_pow_nonneg base e :
  0 <= base -> exists p, Math_pow base e = Num p /\ 0 <= p.
Proof.
  intros H. unfold Math_pow.
  destruct (Rlt_dec 0 base).
  - eexists; split; [reflexivity|]. unfold Rpower. left. apply exp_pos.
  - destruct (Req_dec_T base 0); [|lra].
    exists 0. split; [reflexivity|lra].
Qed.

Lemma Math_pow_neg base e : base < 0 -> Math_pow base e = NaN.
Proof.
  intros H. unfold Math_pow.
  destruct (Rlt_dec 0 base); [lra|].
  destruct (Req_dec_T base 0); [lra|reflexivity].
Qed.

Lemma Math_pow_one e : Math_pow 1 e = Num 1.
Proof.
  unfold Math_pow. destruct (Rlt_dec 0 1); [|lra].
  f_equal. unfold Rpower. rewrite ln_1, Rmult_0_r. apply exp_0.
Qed.

(** With a non-negative blend the local [overall] is a real in [4,10]. *)
Lemma overallOf_nonneg s g h :
  0 <= weightedOf s g h ->
  exists v, overallOf s g h = Num v /\ 4 <= v <= 10.
Proof.
  intros H. unfold overallOf.
  destruct (Math_pow_nonneg (weightedOf s g h / 100) 1.8) as [p [-> Hp]]; [lra|].
  cbn. eexists; split; [reflexivity|].
  unfold Rmin, Rmax.
  destruct (Rle_dec 1 (4 + p * 9)); destruct (Rle_dec 10 _); lra.
Qed.

(** With a negative blend it is [NaN]. *)
Lemma overallOf_neg s g h : weightedOf s g h < 0 -> overallOf s g h = NaN.
Proof.
  intros H. unfold overallOf. rewrite Math_pow_neg; [reflexivity|lra].
Qed.

Lemma weightedOf_nonneg s g h : 0 <= s -> 0 <= g -> 0 <= h -> 0 <= weightedOf s g h.
Proof.
  intros. unfold weightedOf, METHODOLOGY.weights.symmetry,
    METHODOLOGY.weights.golden, METHODOLOGY.weights.harmony. nra.
Qed.

Lemma computeOverall_unfold s g fw ed :
  computeOverall s g fw ed =
  let es := eyeSpacingOf fw ed in
  let h := harmonyOf s g (fst es) in
  {| harmony := round2 h;
     overall := n_round1 (overallOf s g h);
     uniqueness := round1 (uniquenessOf s g h);
     feedback := buildFeedback s g (snd es) |}.
Proof. unfold computeOverall. destruct (eyeSpacingOf fw ed). reflexivity. Qed.

(** C1 (as amended).  For all real inputs the returned [harmony] lies in
    [20,100] and the returned [uniqueness] in [1,10], rounding included;
    the returned [overall] is a number of [1,10] whenever the weighted
    blend [0.35*symmetry + 0.25*golden + 0.40*harmony] is not negative, which
    holds in particular when [symmetry] and [golden] are not negative. *)
Theorem computeOverall_ranges (symmetry golden faceWidth eyeDist : R) :
  let o := computeOverall symmetry golden faceWidth eyeDist in
  let h := harmonyOf symmetry golden (fst (eyeSpacingOf faceWidth eyeDist)) in
  20 <= harmony o <= 100 /\
  1 <= uniqueness o <= 10 /\
  (0 <= weightedOf symmetry golden h ->
   exists v, overall o = Num v /\ 1 <= v <= 10) /\
  (0 <= symmetry -> 0 <= golden -> 0 <= weightedOf symmetry golden h).
Proof.
  rewrite computeOverall_unfold. cbn zeta. cbn [harmony uniqueness overall].
  pose proof (harmonyOf_bounds symmetry golden (fst (eyeSpacingOf faceWidth eyeDist))) as Hh.
  pose proof (uniquenessOf_bounds symmetry golden
                (harmonyOf symmetry golden (fst (eyeSpacingOf faceWidth eyeDist)))) as Hu.
  split; [|split; [|split]].
  - assert (Hb : IZR 2000 <= harmonyOf symmetry golden
                  (fst (eyeSpacingOf faceWidth eyeDist)) * 100 <= IZR 10000) by lra.
    apply round2_bounds in Hb. lra.
  - assert (Hb : IZR 10 <= uniquenessOf symmetry golden
                  (harmonyOf symmetry golden (fst (eyeSpacingOf faceWidth eyeDist)))
                  * 10 <= IZR 100) by lra.
    apply round1_bounds in Hb. lra.
  - intros Hw. destruct (overallOf_nonneg _ _ _ Hw) as [v [-> Hv]].
    cbn. eexists; split; [reflexivity|].
    assert (Hb : IZR 10 <= v * 10 <= IZR 100) by lra.
    apply round1_bounds in Hb. lra.
  - intros Hs Hg. apply weightedOf_nonneg; lra.
Qed.

Lemma computeOverall_ranges_witness :
  let o := computeOverall 0 100 0 0 in
  20 <= harmony o <= 100 /\ 1 <= uniqueness o <= 10 /\
  exists v, overall o = Num v /\ 1 <= v <= 10.
Proof.
  destruct (computeOverall_ranges 0 100 0 0) as [H1 [H2 [H3 H4]]].
  split; [exact H1|]. split; [exact H2|].
  apply H3, H4; lra.
Defined.

(** C1, the claim as stated fails: a negative [symmetry] makes the blend
    negative, [Math.pow] answers [NaN], and [NaN] goes through [clamp] and
    [round1]. *)
Lemma computeOverall_overall_escapes :
  ~ (exists v, overall (computeOverall (-100) 0 0 0) = Num v /\ 1 <= v <= 10).
Proof.
  intros [v [H _]]. rewrite computeOverall_unfold in H. cbn zeta in H.
  cbn [overall] in H. rewrite overallOf_neg in H; [discriminate|].
  pose proof (harmonyOf_bounds (-100) 0 (fst (eyeSpacingOf 0 0))) as Hh.
  assert (Hc : harmonyOf (-100) 0 (fst (eyeSpacingOf 0 0)) = 20).
  { unfold eyeSpacingOf. replace (js_gt 0 0) with false
      by (symmetry; apply js_gt_false; lra).
    unfold harmonyOf. cbn [fst]. apply clamp_below; lra. }
  rewrite Hc. unfold weightedOf, METHODOLOGY.weights.symmetry,
    METHODOLOGY.weights.golden, METHODOLOGY.weights.harmony. lra.
Qed.

(** C10.  For [symmetry] and [golden] in [0,100] the returned [overall] is
    a number of [4,10]: the power of a non-negative blend is not negative
    and neither the clamp nor the rounding goes below [4]. *)
Theorem computeOverall_overall_at_least_4 (symmetry golden faceWidth eyeDist : R) :
  0 <= symmetry <= 100 ->
  0 <= golden <= 100 ->
  exists v,
    overall (computeOverall symmetry golden faceWidth eyeDist) = Num v
    /\ 4 <= v <= 10.
Proof.
  intros Hs Hg. rewrite computeOverall_unfold. cbn zeta. cbn [overall].
  pose proof (harmonyOf_bounds symmetry golden
                (fst (eyeSpacingOf faceWidth eyeDist))) as Hh.
  destruct (overallOf_nonneg symmetry golden
              (harmonyOf symmetry golden (fst (eyeSpacingOf faceWidth eyeDist))))
    as [v [-> Hv]].
  { apply weightedOf_nonneg; lra. }
  cbn. eexists; split; [reflexivity|].
  assert (Hb : IZR 40 <= v * 10 <= IZR 100) by lra.
  apply round1_bounds in Hb. lra.
Qed.

Lemma computeOverall_overall_at_least_4_witness :
  exists v, overall (computeOverall 0 0 0 0) = Num v /\ 4 <= v <= 10.
Proof.
  apply (computeOverall_overall_at_least_4 0 0 0 0); lra.
Defined.

(** C7.  With a positive face width the eye sub-score is the three-step
    function of [eyeDist / faceWidth] and the reported ratio is that
    quotient.  The local [harmony] is the 0.4/0.4/0.2 blend cut to
    [[20,100]]: it is 20 when the blend is at most 20, the blend itself
    between 20 and 100, and 100 when the blend is at least 100.  The
    returned [harmony] is that value rounded to two decimals
    ([Math.round (h * 100) / 100]). *)
Theorem eyeSpacing_bands_and_harmony (symmetry golden faceWidth eyeDist : R) :
  0 < faceWidth ->
  let r := eyeDist / faceWidth in
  let eyeScore := fst (eyeSpacingOf faceWidth eyeDist) in
  let blend := 0.4 * symmetry + 0.4 * golden + 0.2 * eyeScore in
  let h := harmonyOf symmetry golden eyeScore in
  snd (eyeSpacingOf faceWidth eyeDist) = r /\
  (0.28 < r < 0.36 -> eyeScore = 100) /\
  (r <= 0.26 \/ 0.38 <= r -> eyeScore = 60) /\
  (0.26 < r <= 0.28 \/ 0.36 <= r < 0.38 -> eyeScore = 80) /\
  (blend <= 20 -> h = 20) /\
  (20 <= blend <= 100 -> h = blend) /\
  (100 <= blend -> h = 100) /\
  20 <= h <= 100 /\
  harmony (computeOverall symmetry golden faceWidth eyeDist)
    = IZR (Zfloor (h * 100 + / 2)) / 100.
Proof.
  intros Hfw r eyeScore blend h.
  assert (Hh : (blend <= 20 -> h = 20) /\ (20 <= blend <= 100 -> h = blend)
               /\ (100 <= blend -> h = 100) /\ 20 <= h <= 100).
  { subst h blend. unfold harmonyOf, clamp, Rmin, Rmax. cbn zeta.
    destruct (Rle_dec 20 (0.4 * symmetry + 0.4 * golden + 0.2 * eyeScore));
      destruct (Rle_dec 100 _); repeat split; intros; lra. }
  assert (Hr : harmony (computeOverall symmetry golden faceWidth eyeDist)
               = IZR (Zfloor (h * 100 + / 2)) / 100).
  { rewrite computeOverall_unfold. cbn zeta. cbn [harmony]. reflexivity. }
  clearbody h blend. subst eyeScore.
  unfold eyeSpacingOf.
  replace (js_gt faceWidth 0) with true by (symmetry; now apply js_gt_true).
  fold r.
  unfold METHODOLOGY.eyeSpacing.idealMin, METHODOLOGY.eyeSpacing.idealMax,
    METHODOLOGY.eyeSpacing.low, METHODOLOGY.eyeSpacing.high.
  destruct (js_gt r 0.28) eqn:E1; destruct (js_lt r 0.36) eqn:E2;
    destruct (js_le r 0.26) eqn:E3; destruct (js_ge r 0.38) eqn:E4;
    cbn [andb orb fst snd];
    try apply js_gt_true in E1; try apply js_gt_false in E1;
    try apply js_lt_true in E2; try apply js_lt_false in E2;
    try apply js_le_true in E3; try apply js_le_false in E3;
    try apply js_ge_true in E4; try apply js_ge_false in E4;
    (split; [reflexivity|]);
    (split; [intros; try reflexivity; lra|]);
    (split; [intros; try reflexivity; lra|]);
    (split; [intros; try reflexivity; lra|]);
    (split; [apply Hh|]); (split; [apply Hh|]); (split; [apply Hh|]);
    (split; [apply Hh|]); exact Hr.
Qed.

Lemma eyeSpacing_bands_and_harmony_witness :
  fst (eyeSpacingOf 100 32) = 100 /\
  harmonyOf 90 80 (fst (eyeSpacingOf 100 32)) = 88.
Proof.
  destruct (eyeSpacing_bands_and_harmony 90 80 100 32)
    as [_ [H1 [_ [_ [_ [H2 _]]]]]].
  - lra.
  - assert (E : fst (eyeSpacingOf 100 32) = 100) by (apply H1; lra).
    split; [exact E|].
    rewrite H2; rewrite E; lra.
Defined.

(** *** Feedback *)

Ltac unfold_fb :=
  unfold fb_symHigh, fb_symGood, fb_symLow, fb_goldHigh, fb_goldGood,
    fb_goldLow, fb_eyeIdeal, fb_eyeNarrow, fb_eyeWide, fb_disclaimer in *.

(** The disclaimer closes the feedback whatever the inputs are. *)
Lemma feedbackLines_last s g r :
  last (feedbackLines s g r) EmptyString = fb_disclaimer.
Proof.
  unfold feedbackLines. cbn zeta.
  rewrite !app_assoc. apply last_last.
Qed.

(** Without a positive ratio the feedback has exactly three lines. *)
Lemma feedbackLines_no_ratio s g r :
  r <= 0 ->
  exists l1 l2,
    feedbackLines s g r = [l1; l2; fb_disclaimer]
    /\ In l1 [fb_symHigh; fb_symGood; fb_symLow]
    /\ In l2 [fb_goldHigh; fb_goldGood; fb_goldLow].
Proof.
  intros Hr. unfold feedbackLines. cbn zeta.
  replace (js_gt r 0) with false by (symmetry; now apply js_gt_false).
  destruct (js_gt s 90); destruct (js_gt s 75);
    destruct (js_gt g 90); destruct (js_gt g 75);
    cbn [app]; do 2 eexists; (split; [reflexivity|]); cbn [In]; tauto.
Qed.

(** No eye-spacing sentence is produced unless the ratio is positive. *)
Lemma feedbackLines_no_eye_line s g r :
  r <= 0 ->
  ~ In fb_eyeIdeal (feedbackLines s g r)
  /\ ~ In fb_eyeNarrow (feedbackLines s g r)
  /\ ~ In fb_eyeWide (feedbackLines s g r).
Proof.
  intros Hr.
  destruct (feedbackLines_no_ratio s g r Hr) as [l1 [l2 [E [H1 H2]]]].
  rewrite E. cbn [In] in H1, H2.
  repeat split;
    (intros [H|[H|[H|[]]]];
     destruct H1 as [H1|[H1|[H1|[]]]]; destruct H2 as [H2|[H2|[H2|[]]]];
     subst; unfold_fb; discriminate H).
Qed.

(** C9.  With [faceWidth = 0] the eye sub-score is the default [75] (none
    of the three bands), the ratio handed to [buildFeedback] is [0], and the
    feedback is the symmetry line, the golden line and the disclaimer: no
    eye-spacing sentence (there is one only for a positive ratio), the
    disclaimer last (as it always is). *)
Theorem zero_faceWidth_feedback (symmetry golden eyeDist : R) :
  let o := computeOverall symmetry golden 0 eyeDist in
  let lines := feedbackLines symmetry golden 0 in
  eyeSpacingOf 0 eyeDist = (75, 0) /\
  harmony o = round2 (clamp (0.4 * symmetry + 0.4 * golden + 0.2 * 75) 20 100) /\
  feedback o = String.concat newline lines /\
  List.length lines = 3%nat /\
  ~ In fb_eyeIdeal lines /\ ~ In fb_eyeNarrow lines /\ ~ In fb_eyeWide lines /\
  last lines EmptyString = fb_disclaimer /\
  (forall r, In fb_eyeIdeal (feedbackLines symmetry golden r)
             \/ In fb_eyeNarrow (feedbackLines symmetry golden r)
             \/ In fb_eyeWide (feedbackLines symmetry golden r) -> 0 < r) /\
  (forall r, last (feedbackLines symmetry golden r) EmptyString = fb_disclaimer).
Proof.
  cbn zeta.
  assert (Hes : eyeSpacingOf 0 eyeDist = (75, 0)).
  { unfold eyeSpacingOf.
    replace (js_gt 0 0) with false by (symmetry; apply js_gt_false; lra).
    reflexivity. }
  rewrite computeOverall_unfold, Hes. cbn zeta. cbn [fst snd harmony feedback].
  split; [reflexivity|]. split; [reflexivity|]. split; [reflexivity|].
  split.
  { destruct (feedbackLines_no_ratio symmetry golden 0) as [l1 [l2 [E _]]];
      [lra|]. now rewrite E. }
  destruct (feedbackLines_no_eye_line symmetry golden 0) as [N1 [N2 N3]]; [lra|].
  split; [exact N1|]. split; [exact N2|]. split; [exact N3|].
  split; [apply feedbackLines_last|].
  split; [|intros r; apply feedbackLines_last].
  intros r Hin. destruct (Rlt_dec 0 r) as [Hpos|Hneg]; [exact Hpos|].
  destruct (feedbackLines_no_eye_line symmetry golden r) as [M1 [M2 M3]]; [lra|].
  tauto.
Qed.

Lemma zero_faceWidth_feedback_witness :
  eyeSpacingOf 0 320 = (75, 0)
  /\ feedbackLines 95 80 0 = [fb_symHigh; fb_goldGood; fb_disclaimer]
  /\ ~ In fb_eyeIdeal (feedbackLines 95 80 0).
Proof.
  destruct (zero_faceWidth_feedback 95 80 320) as [H1 [_ [_ [_ [H2 _]]]]].
  split; [exact H1|]. split; [|exact H2].
  unfold feedbackLines. cbn zeta.
  replace (js_gt 0 0) with false by (symmetry; apply js_gt_false; lra).
  replace (js_gt 95 90) with true by (symmetry; apply js_gt_true; lra).
  replace (js_gt 80 90) with false by (symmetry; apply js_gt_false; lra).
  replace (js_gt 80 75) with true by (symmetry; apply js_gt_true; lra).
  reflexivity.
Defined.

(** *** Lists, sums and the option monad *)

Lemma mapM_Forall {A B : Type} (f : A -> option B) (P : B -> Prop) (l : list A) :
  Forall (fun a => exists b, f a = Some b /\ P b) l ->
  exists bs, mapM f l = Some bs /\ Forall P bs /\ List.length bs = List.length l.
Proof.
  induction 1 as [|a l [b [Hb HP]] _ [bs [IH1 [IH2 IH3]]]].
  - exists []. repeat split; constructor.
  - exists (b :: bs). cbn. rewrite Hb. cbn. rewrite IH1. cbn.
    repeat split; [now constructor | now rewrite IH3].
Qed.

Lemma fold_sum_acc (l : list R) (a : R) :
  fold_left (fun a b => a + b) l a = a + sum l.
Proof.
  unfold sum. revert a. induction l as [|d l IH]; intros a; cbn.
  - lra.
  - rewrite (IH (a + d)), (IH (0 + d)). lra.
Qed.

Lemma sum_cons (d : R) (l : list R) : sum (d :: l) = d + sum l.
Proof. unfold sum at 1. cbn. rewrite fold_sum_acc. lra. Qed.

Lemma sum_nonneg (l : list R) : Forall (fun d => 0 <= d) l -> 0 <= sum l.
Proof.
  induction 1 as [|d l Hd _ IH].
  - unfold sum; cbn; lra.
  - rewrite sum_cons. lra.
Qed.

Lemma sum_zero (l : list R) : Forall (fun d => d = 0) l -> sum l = 0.
Proof.
  induction 1 as [|d l Hd _ IH].
  - reflexivity.
  - rewrite sum_cons. lra.
Qed.

Lemma at_index_defined (lms : list LM.t) (i : nat) :
  (i < List.length lms)%nat -> exists p, at_index lms i = Some p.
Proof.
  intros H. unfold at_index.
  destruct (nth_error lms i) eqn:E; [eauto|].
  apply nth_error_None in E. lia.
Qed.

(** *** Symmetry score *)

Lemma pairDiff_defined lms ij :
  (fst ij < List.length lms)%nat -> (snd ij < List.length lms)%nat ->
  exists d, pairDiff lms ij = Some d /\ 0 <= d.
Proof.
  intros Hi Hj. unfold pairDiff.
  destruct (at_index_defined lms _ Hi) as [pi ->].
  destruct (at_index_defined lms _ Hj) as [pj ->].
  cbn. eexists; split; [reflexivity|]. apply Rabs_pos.
Qed.

(** The score computed from the list of residuals. *)
Lemma symmetry_of_diffs_range (diffs : list R) :
  Forall (fun d => 0 <= d) diffs ->
  List.length diffs = 15%nat ->
  let mean := sum diffs / INR (List.length diffs) in
  0 <= Rmax 0 (Math_round ((100 - mean * 1000) * 100) / 100) <= 100.
Proof.
  intros Hpos Hlen. cbn zeta. rewrite Hlen.
  apply sum_nonneg in Hpos.
  assert (H15 : INR 15 = 15) by (simpl; lra). rewrite H15.
  assert (Hm : 0 <= sum diffs / 15) by lra.
  assert (Hr : Math_round ((100 - sum diffs / 15 * 1000) * 100) <= IZR 10000).
  { rewrite <- (Math_round_IZR 10000). apply Math_round_mono. lra. }
  unfold Rmax. destruct (Rle_dec 0 _); lra.
Qed.

Lemma calcSymmetryScore_bounded (landmarks : list LM.t) :
  pairsDefined landmarks ->
  exists v, calcSymmetryScore landmarks = Some v /\ 0 <= v <= 100.
Proof.
  intros Hdef.
  destruct (mapM_Forall (pairDiff landmarks) (fun d => 0 <= d) symmetricPairs)
    as [diffs [E [Hpos Hlen]]].
  { eapply Forall_impl; [|exact Hdef].
    intros ij [Hi Hj]. now apply pairDiff_defined. }
  unfold calcSymmetryScore. rewrite E. cbn [obind].
  eexists; split; [reflexivity|].
  now apply symmetry_of_diffs_range.
Qed.

Lemma calcSymmetryScore_mirrored (landmarks : list LM.t) :
  pairsDefined landmarks -> mirrored landmarks ->
  calcSymmetryScore landmarks = Some 100.
Proof.
  intros Hdef Hmir.
  destruct (mapM_Forall (pairDiff landmarks) (fun d => d = 0) symmetricPairs)
    as [diffs [E [Hz Hlen]]].
  { unfold pairsDefined, mirrored in *.
    rewrite Forall_forall in *. intros ij Hin.
    destruct (Hdef ij Hin) as [Hi Hj].
    destruct (at_index_defined landmarks _ Hi) as [pi Ei].
    destruct (at_index_defined landmarks _ Hj) as [pj Ej].
    unfold pairDiff. rewrite Ei, Ej. cbn.
    eexists; split; [reflexivity|].
    rewrite (Hmir ij Hin pi pj Ei Ej).
    replace (1 - LM.x pj - (1 - LM.x pj)) with 0 by lra. apply Rabs_R0. }
  unfold calcSymmetryScore. rewrite E. cbn [obind]. f_equal.
  rewrite (sum_zero _ Hz).
  replace ((100 - 0 / INR (List.length diffs) * 1000) * 100) with (IZR 10000)
    by (unfold Rdiv; lra).
  rewrite Math_round_IZR. unfold Rmax. destruct (Rle_dec 0 _); lra.
Qed.

(** C2.  When every index of the pair table is defined the symmetry score
    is a number of [0,100]; when moreover the pairs are mirrored
    ([x_i = 1 - x_j]) it is exactly [100]. *)
Theorem calcSymmetryScore_range (landmarks : list LM.t) :
  pairsDefined landmarks ->
  (exists v, calcSymmetryScore landmarks = Some v /\ 0 <= v <= 100)
  /\ (mirrored landmarks -> calcSymmetryScore landmarks = Some 100).
Proof.
  intros Hdef. split.
  - now apply calcSymmetryScore_bounded.
  - now apply calcSymmetryScore_mirrored.
Qed.

(** *** The ideal face *)

Lemma at_index_idealFace (i : nat) :
  (i < 468)%nat -> at_index idealFace i = Some (idealPoint i).
Proof.
  intros H. unfold at_index, idealFace.
  rewrite nth_error_map, nth_error_seq.
  destruct (Nat.ltb_spec i 468); [reflexivity|lia].
Qed.

Lemma length_idealFace : List.length idealFace = 468%nat.
Proof. unfold idealFace. now rewrite length_map, length_seq. Qed.

Lemma pairsDefined_idealFace : pairsDefined idealFace.
Proof.
  unfold pairsDefined. rewrite length_idealFace.
  unfold symmetricPairs.
  repeat (apply Forall_cons; [cbn [fst snd]; lia|]). apply Forall_nil.
Qed.

Lemma mirrored_idealFace : mirrored idealFace.
Proof.
  unfold mirrored, symmetricPairs.
  repeat (apply Forall_cons;
          [ cbn [fst snd]; intros pi pj Hi Hj;
            rewrite at_index_idealFace in Hi by lia;
            rewrite at_index_idealFace in Hj by lia;
            injection Hi as <-; injection Hj as <-;
            unfold idealPoint; cbn [Nat.eqb LM.x]; lra | ]).
  apply Forall_nil.
Qed.

Lemma calcSymmetryScore_range_witness :
  (exists v, calcSymmetryScore idealFace = Some v /\ 0 <= v <= 100)
  /\ calcSymmetryScore idealFace = Some 100.
Proof.
  destruct (calcSymmetryScore_range idealFace pairsDefined_idealFace) as [H1 H2].
  split; [exact H1 | exact (H2 mirrored_idealFace)].
Defined.

(** *** An enclosure of [exp (-5)]

    Only [1 + x <= exp x] is used: it bounds [exp] at a small argument,
    and squaring that bound over and over, rounded outwards on the
    fixed-point grid, carries it to [-5]. *)

Lemma expScale_pos : (0 < expScale)%Z.
Proof. reflexivity. Qed.

Lemma sqUp_spec (a : Z) : (a * a <= expScale * sqUp a)%Z.
Proof.
  unfold sqUp. pose proof expScale_pos as HS.
  pose proof (Z.div_mod (a * a + expScale - 1) expScale ltac:(lia)) as Hd.
  pose proof (Z.mod_pos_bound (a * a + expScale - 1) expScale HS) as Hm.
  lia.
Qed.

Lemma sqDn_spec (a : Z) : (expScale * sqDn a <= a * a)%Z.
Proof.
  unfold sqDn. pose proof expScale_pos as HS.
  apply Z.mul_div_le. exact HS.
Qed.

Lemma sqDn_nonneg (a : Z) : (0 <= sqDn a)%Z.
Proof.
  unfold sqDn. apply Z.div_pos; [nia | exact expScale_pos].
Qed.

Lemma exp_double (x : R) : exp (2 * x) = exp x * exp x.
Proof. replace (2 * x) with (x + x) by lra. apply exp_plus. Qed.

Lemma exp_sqUp (x : R) (a : Z) :
  exp x <= IZR a / IZR expScale ->
  exp (2 * x) <= IZR (sqUp a) / IZR expScale.
Proof.
  intros H. rewrite exp_double.
  pose proof (exp_pos x) as Hx.
  assert (HS : 0 < IZR expScale) by (apply IZR_lt, expScale_pos).
  pose proof (IZR_le _ _ (sqUp_spec a)) as Hz. rewrite !mult_IZR in Hz.
  apply Rle_trans with (IZR a / IZR expScale * (IZR a / IZR expScale)).
  - apply Rmult_le_compat; lra.
  - apply (Rmult_le_reg_r (IZR expScale * IZR expScale)); [nra|].
    replace (IZR a / IZR expScale * (IZR a / IZR expScale)
             * (IZR expScale * IZR expScale)) with (IZR a * IZR a)
      by (field; lra).
    replace (IZR (sqUp a) / IZR expScale * (IZR expScale * IZR expScale))
      with (IZR expScale * IZR (sqUp a)) by (field; lra).
    exact Hz.
Qed.

Lemma exp_sqDn (x : R) (a : Z) :
  (0 <= a)%Z ->
  IZR a / IZR expScale <= exp x ->
  IZR (sqDn a) / IZR expScale <= exp (2 * x).
Proof.
  intros Ha H. rewrite exp_double.
  assert (HS : 0 < IZR expScale) by (apply IZR_lt, expScale_pos).
  pose proof (IZR_le _ _ Ha) as Ha'.
  assert (H0 : 0 <= IZR a / IZR expScale).
  { apply Rmult_le_pos; [exact Ha'|]. left. now apply Rinv_0_lt_compat. }
  pose proof (IZR_le _ _ (sqDn_spec a)) as Hz. rewrite !mult_IZR in Hz.
  apply Rle_trans with (IZR a / IZR expScale * (IZR a / IZR expScale)).
  - apply (Rmult_le_reg_r (IZR expScale * IZR expScale)); [nra|].
    replace (IZR a / IZR expScale * (IZR a / IZR expScale)
             * (IZR expScale * IZR expScale)) with (IZR a * IZR a)
      by (field; lra).
    replace (IZR (sqDn a) / IZR expScale * (IZR expScale * IZR expScale))
      with (IZR expScale * IZR (sqDn a)) by (field; lra).
    exact Hz.
  - apply Rmult_le_compat; lra.
Qed.

Lemma exp_iterSq_up (k : nat) (x : R) (a : Z) :
  exp x <= IZR a / IZR expScale ->
  exp (2 ^ k * x) <= IZR (iterSq sqUp k a) / IZR expScale.
Proof.
  revert x a. induction k as [|k IH]; intros x a H.
  - cbn. now rewrite Rmult_1_l.
  - cbn [iterSq]. replace (2 ^ S k * x) with (2 ^ k * (2 * x)) by (simpl; ring).
    apply IH. now apply exp_sqUp.
Qed.

Lemma exp_iterSq_dn (k : nat) (x : R) (a : Z) :
  (0 <= a)%Z ->
  IZR a / IZR expScale <= exp x ->
  IZR (iterSq sqDn k a) / IZR expScale <= exp (2 ^ k * x).
Proof.
  revert x a. induction k as [|k IH]; intros x a Ha H.
  - cbn. now rewrite Rmult_1_l.
  - cbn [iterSq]. replace (2 ^ S k * x) with (2 ^ k * (2 * x)) by (simpl; ring).
    apply IH; [apply sqDn_nonneg | now apply exp_sqDn].
Qed.

Lemma exp_minus5_upper : exp (-5) < 0.00675.
Proof.
  set (a0 := ((expScale * 16384 + 16388) / 16389)%Z).
  assert (HS : 0 < IZR expScale) by (apply IZR_lt, expScale_pos).
  assert (H0 : exp (- (5 / 16384)) <= IZR a0 / IZR expScale).
  { rewrite exp_Ropp.
    pose proof (exp_ineq1_le (5 / 16384)) as He.
    assert (Hq : / exp (5 / 16384) <= 16384 / 16389).
    { replace (16384 / 16389) with (/ (1 + 5 / 16384)) by (field; lra).
      apply Rinv_le_contravar; lra. }
    apply Rle_trans with (1 := Hq).
    assert (Hz : (expScale * 16384 <= 16389 * a0)%Z).
    { subst a0.
      pose proof (Z.div_mod (expScale * 16384 + 16388) 16389 ltac:(lia)).
      pose proof (Z.mod_pos_bound (expScale * 16384 + 16388) 16389 ltac:(lia)).
      lia. }
    apply IZR_le in Hz. rewrite !mult_IZR in Hz.
    apply (Rmult_le_reg_r (IZR expScale * 16389)); [nra|].
    replace (16384 / 16389 * (IZR expScale * 16389)) with (IZR expScale * 16384)
      by (field; lra).
    replace (IZR a0 / IZR expScale * (IZR expScale * 16389)) with (16389 * IZR a0)
      by (field; lra).
    exact Hz. }
  apply (exp_iterSq_up 14) in H0.
  replace (2 ^ 14 * - (5 / 16384)) with (-5) in H0 by (simpl; field).
  apply Rle_lt_trans with (1 := H0).
  assert (Hc : (iterSq sqUp 14 a0 < 6750000000000)%Z) by (vm_compute; reflexivity).
  apply IZR_lt in Hc.
  apply (Rmult_lt_reg_r (IZR expScale)); [exact HS|].
  replace (IZR (iterSq sqUp 14 a0) / IZR expScale * IZR expScale)
    with (IZR (iterSq sqUp 14 a0)) by (field; lra).
  replace (0.00675 * IZR expScale) with (IZR 6750000000000); [exact Hc|].
  change (IZR expScale) with (IZR 1000000000000000). lra.
Qed.

Lemma exp_minus5_lower : 0.00665 <= exp (-5).
Proof.
  set (a0 := ((expScale * 2043) / 2048)%Z).
  assert (HS : 0 < IZR expScale) by (apply IZR_lt, expScale_pos).
  assert (Ha0 : (0 <= a0)%Z) by (subst a0; vm_compute; discriminate).
  assert (H0 : IZR a0 / IZR expScale <= exp (- (5 / 2048))).
  { pose proof (exp_ineq1_le (- (5 / 2048))) as He.
    apply Rle_trans with (2 := He).
    assert (Hz : (2048 * a0 <= expScale * 2043)%Z).
    { subst a0. apply Z.mul_div_le. lia. }
    apply IZR_le in Hz. rewrite !mult_IZR in Hz.
    apply (Rmult_le_reg_r (IZR expScale * 2048)); [nra|].
    replace (IZR a0 / IZR expScale * (IZR expScale * 2048)) with (2048 * IZR a0)
      by (field; lra).
    replace ((1 + - (5 / 2048)) * (IZR expScale * 2048)) with (IZR expScale * 2043)
      by (field; lra).
    exact Hz. }
  apply (exp_iterSq_dn 11) in H0; [|exact Ha0].
  replace (2 ^ 11 * - (5 / 2048)) with (-5) in H0 by (simpl; field).
  apply Rle_trans with (2 := H0).
  assert (Hc : (6650000000000 <= iterSq sqDn 11 a0)%Z) by (vm_compute; discriminate).
  apply IZR_le in Hc.
  apply (Rmult_le_reg_r (IZR expScale)); [exact HS|].
  replace (IZR (iterSq sqDn 11 a0) / IZR expScale * IZR expScale)
    with (IZR (iterSq sqDn 11 a0)) by (field; lra).
  replace (0.00665 * IZR expScale) with (IZR 6650000000000); [exact Hc|].
  change (IZR expScale) with (IZR 1000000000000000). lra.
Qed.

(** *** Golden score *)

Lemma js_gt_pos_true (a : R) : 0 < a -> js_gt a 0 = true.
Proof. intros H. now apply js_gt_true. Qed.

(** The five relative errors of the program's own ratio table. *)
Lemma relErrors_ratiosOf (m : Measures) :
  relErrors (ratiosOf m) goldenTargets =
  [ Rabs (ratio (m_faceLength m) (m_faceWidth m) - 1.618) / 1.618;
    Rabs (ratio (m_eyeDist m) (m_mouthWidth m) - 1.618) / 1.618;
    Rabs (ratio (m_eyeDist m) (m_faceWidth m) - 0.32) / 0.32;
    Rabs (ratio (m_noseToChin m) (m_faceLength m) - 0.618) / 0.618;
    Rabs (ratio (m_lipHeight m) (m_mouthWidth m) - 0.2) / 0.2 ].
Proof.
  unfold relErrors, ratiosOf. cbn [map relError].
  change (lookup k_lengthWidth goldenTargets) with (Some 1.618).
  change (lookup k_eyeMouth goldenTargets) with (Some 1.618).
  change (lookup k_eyeFace goldenTargets) with (Some 0.32).
  change (lookup k_noseChin goldenTargets) with (Some 0.618).
  change (lookup k_lipMouth goldenTargets) with (Some 0.2).
  cbv iota beta. rewrite !js_gt_pos_true by lra. reflexivity.
Qed.

Lemma sum_5 (a b c d e : R) : sum [a; b; c; d; e] = a + b + c + d + e.
Proof. unfold sum. cbn. lra. Qed.

Lemma goldenScore_zero_error : goldenScore [0; 0; 0; 0; 0] = 100.
Proof.
  unfold goldenScore. cbn zeta. rewrite sum_5.
  replace (-5 * ((0 + 0 + 0 + 0 + 0) / INR (List.length [0; 0; 0; 0; 0]))) with 0
    by (unfold Rdiv; ring).
  rewrite exp_0.
  replace (100 * 1 * 100) with (IZR 10000) by lra.
  rewrite Math_round_IZR. lra.
Qed.

Lemma goldenScore_unit_error : goldenScore [1; 1; 1; 1; 1] = 0.67.
Proof.
  unfold goldenScore. cbn zeta. rewrite sum_5.
  replace (-5 * ((1 + 1 + 1 + 1 + 1) / INR (List.length [1; 1; 1; 1; 1]))) with (-5)
    by (simpl; field).
  pose proof exp_minus5_lower. pose proof exp_minus5_upper.
  rewrite (Math_round_between 67); lra.
Qed.

(** *** Distances *)

Lemma Math_hypot_0_l (b : R) : Math_hypot 0 b = Rabs b.
Proof.
  unfold Math_hypot. replace (0 * 0 + b * b) with (Rsqr b) by (unfold Rsqr; ring).
  apply sqrt_Rsqr_abs.
Qed.

Lemma Math_hypot_0_r (a : R) : Math_hypot a 0 = Rabs a.
Proof.
  unfold Math_hypot. replace (a * a + 0 * 0) with (Rsqr a) by (unfold Rsqr; ring).
  apply sqrt_Rsqr_abs.
Qed.

Lemma euclid_same_x (x1 y1 x2 y2 : R) :
  x1 = x2 -> euclid (x1, y1) (x2, y2) = Rabs (y1 - y2).
Proof.
  intros ->. unfold euclid. cbn [fst snd].
  replace (x2 - x2) with 0 by ring. apply Math_hypot_0_l.
Qed.

Lemma euclid_same_y (x1 y1 x2 y2 : R) :
  y1 = y2 -> euclid (x1, y1) (x2, y2) = Rabs (x1 - x2).
Proof.
  intros ->. unfold euclid. cbn [fst snd].
  replace (y2 - y2) with 0 by ring. apply Math_hypot_0_r.
Qed.

Lemma euclid_self (p : R * R) : euclid p p = 0.
Proof.
  destruct p as [a b]. rewrite euclid_same_x by reflexivity.
  replace (b - b) with 0 by ring. apply Rabs_R0.
Qed.

Lemma ratio_zero_den (num : R) : ratio num 0 = 0.
Proof.
  unfold ratio. replace (js_gt 0 0) with false; [reflexivity|].
  symmetry. apply js_gt_false. lra.
Qed.

Lemma ratio_pos_den (num den : R) : 0 < den -> ratio num den = num / den.
Proof. intros H. unfold ratio. now rewrite js_gt_pos_true. Qed.

(** A ratio that is not [0] comes from a positive denominator. *)
Lemma ratio_nonzero (num den t : R) :
  ratio num den = t -> t <> 0 -> 0 < den /\ num / den = t.
Proof.
  unfold ratio. destruct (js_gt den 0) eqn:E.
  - apply js_gt_true in E. auto.
  - intros <- H. now elim H.
Qed.

Lemma analyzeGolden_unfold (imageW imageH : R) (lms : list LM.t) (m : Measures) :
  measure imageW imageH lms = Some m ->
  analyzeGolden imageW imageH lms =
  Some {| score := goldenScore (relErrors (ratiosOf m) goldenTargets);
          values := valuesOf m (goldenScore (relErrors (ratiosOf m) goldenTargets))
                      (ratiosOf m);
          faceWidth := m_faceWidth m;
          eyeDist := m_eyeDist m;
          eyeL := m_eyeL m;
          eyeR := m_eyeR m;
          ratios := ratiosOf m;
          targets := goldenTargets |}.
Proof. intros E. unfold analyzeGolden. rewrite E. reflexivity. Qed.

Lemma analyzeGolden_inv (imageW imageH : R) (lms : list LM.t) (gd : GoldenOut) :
  analyzeGolden imageW imageH lms = Some gd ->
  exists m,
    measure imageW imageH lms = Some m
    /\ ratios gd = ratiosOf m /\ targets gd = goldenTargets
    /\ score gd = goldenScore (relErrors (ratiosOf m) goldenTargets)
    /\ faceWidth gd = m_faceWidth m /\ eyeDist gd = m_eyeDist m.
Proof.
  intros H. destruct (measure imageW imageH lms) as [m|] eqn:E.
  - rewrite (analyzeGolden_unfold _ _ _ _ E) in H. injection H as <-.
    exists m. repeat split.
  - unfold analyzeGolden in H. rewrite E in H. discriminate.
Qed.

Lemma relError_exact (t : R) : 0 < t -> Rabs (t - t) / t = 0.
Proof.
  intros H. replace (t - t) with 0 by ring. rewrite Rabs_R0. unfold Rdiv. ring.
Qed.

(** The score when the five ratios are the five targets. *)
Lemma goldenScore_on_targets (m : Measures) :
  map snd (ratiosOf m) = map snd goldenTargets ->
  goldenScore (relErrors (ratiosOf m) goldenTargets) = 100.
Proof.
  intros H. rewrite relErrors_ratiosOf.
  unfold ratiosOf, goldenTargets in H. cbn [map snd] in H.
  injection H as -> -> -> -> ->.
  rewrite !relError_exact by lra. apply goldenScore_zero_error.
Qed.

(** C3.  When the five measured ratios are exactly the five targets the
    golden score is [100]: every relative error is [0], [exp 0 = 1], and
    [10000] is its own rounding. *)
Theorem analyzeGolden_targets_score
  (imageW imageH : R) (lms : list LM.t) (gd : GoldenOut) :
  analyzeGolden imageW imageH lms = Some gd ->
  map snd (ratios gd) = map snd (targets gd) ->
  targets gd = goldenTargets /\ score gd = 100.
Proof.
  intros H Heq.
  destruct (analyzeGolden_inv _ _ _ _ H) as [m [_ [Er [Et [Es _]]]]].
  split; [exact Et|].
  rewrite Es. apply goldenScore_on_targets. now rewrite <- Er, <- Et.
Qed.

Lemma measure_idealFace : measure 1 1 idealFace = Some idealMeasures.
Proof.
  unfold measure, project.
  rewrite !at_index_idealFace by lia.
  reflexivity.
Qed.

Ltac Rabs_value :=
  match goal with
  | |- context [Rabs ?e] =>
      let v := fresh "v" in
      let Hv := fresh "Hv" in
      remember (Rabs e) as v eqn:Hv;
      unfold Rabs in Hv; destruct (Rcase_abs _) in Hv; subst v
  end.

Lemma idealMeasures_values :
  m_faceLength idealMeasures = 0.809 /\ m_faceWidth idealMeasures = 0.5
  /\ m_eyeDist idealMeasures = 0.16 /\ m_mouthWidth idealMeasures = 80 / 809
  /\ m_noseToChin idealMeasures = 0.499962 /\ m_lipHeight idealMeasures = 16 / 809.
Proof.
  unfold idealMeasures; cbn [m_faceLength m_faceWidth m_eyeDist m_mouthWidth
                              m_noseToChin m_lipHeight].
  repeat split;
    first [ rewrite euclid_same_x by lra | rewrite euclid_same_y by lra ];
    Rabs_value; lra.
Qed.

Lemma ratios_idealMeasures :
  map snd (ratiosOf idealMeasures) = map snd goldenTargets.
Proof.
  destruct idealMeasures_values as [E1 [E2 [E3 [E4 [E5 E6]]]]].
  unfold ratiosOf, goldenTargets. cbn [map snd].
  rewrite E1, E2, E3, E4, E5, E6.
  rewrite !ratio_pos_den by lra.
  repeat (apply f_equal2; [lra|]). reflexivity.
Qed.

Lemma analyzeGolden_targets_score_witness :
  exists gd, analyzeGolden 1 1 idealFace = Some gd /\ score gd = 100.
Proof.
  eexists. split.
  - apply analyzeGolden_unfold, measure_idealFace.
  - apply (analyzeGolden_targets_score 1 1 idealFace).
    + apply analyzeGolden_unfold, measure_idealFace.
    + exact ratios_idealMeasures.
Defined.

(** *** Degenerate geometry *)

Lemma project_flat (imageW imageH cx cy : R) (lms : list LM.t) (idx : nat) :
  Forall (fun p => LM.x p = cx /\ LM.y p = cy) lms ->
  (idx < List.length lms)%nat ->
  project idx imageW imageH lms = Some (cx * imageW, cy * imageH).
Proof.
  intros Hall Hidx. unfold project.
  destruct (at_index_defined lms idx Hidx) as [p E]. rewrite E. cbn.
  rewrite Forall_forall in Hall.
  destruct (Hall p (nth_error_In _ _ E)) as [-> ->]. reflexivity.
Qed.

Lemma relError_of_zero (t : R) : 0 < t -> Rabs (0 - t) / t = 1.
Proof.
  intros H. replace (0 - t) with (- t) by ring.
  rewrite Rabs_Ropp, Rabs_pos_eq by lra. field. lra.
Qed.

(** C4.  A landmark list whose points all coincide (and which is long
    enough to hold the anatomical indices, the largest being 454) is
    analysed without exception: the six distances are [0], the five ratios
    are [0], the five relative errors are [1], and the golden score is
    [0.67], the two-decimal rounding of [100 * exp (-5)]. *)
Theorem analyzeGolden_degenerate
  (imageW imageH cx cy : R) (lms : list LM.t) :
  (454 < List.length lms)%nat ->
  Forall (fun p => LM.x p = cx /\ LM.y p = cy) lms ->
  exists m gd,
    measure imageW imageH lms = Some m
    /\ analyzeGolden imageW imageH lms = Some gd
    /\ m_faceLength m = 0 /\ m_faceWidth m = 0 /\ m_eyeDist m = 0
    /\ m_mouthWidth m = 0 /\ m_noseToChin m = 0 /\ m_lipHeight m = 0
    /\ faceWidth gd = 0 /\ eyeDist gd = 0
    /\ map snd (ratios gd) = [0; 0; 0; 0; 0]
    /\ relErrors (ratios gd) (targets gd) = [1; 1; 1; 1; 1]
    /\ score gd = 0.67
    /\ 66.5 <= 100 * exp (-5 * 1) * 100 < 67.5.
Proof.
  intros Hlen Hall.
  assert (Hm : measure imageW imageH lms =
               Some {| m_faceLength := 0; m_faceWidth := 0; m_eyeDist := 0;
                       m_mouthWidth := 0; m_noseToChin := 0; m_lipHeight := 0;
                       m_eyeL := (cx * imageW, cy * imageH);
                       m_eyeR := (cx * imageW, cy * imageH) |}).
  { unfold measure.
    rewrite !(project_flat imageW imageH cx cy lms) by (assumption || lia).
    cbn [obind]. rewrite !euclid_self. reflexivity. }
  do 2 eexists. split; [exact Hm|].
  split; [exact (analyzeGolden_unfold _ _ _ _ Hm)|].
  cbn [m_faceLength m_faceWidth m_eyeDist m_mouthWidth m_noseToChin m_lipHeight
       faceWidth eyeDist ratios targets score].
  do 8 (split; [reflexivity|]).
  assert (Hr : relErrors
                 (ratiosOf {| m_faceLength := 0; m_faceWidth := 0; m_eyeDist := 0;
                              m_mouthWidth := 0; m_noseToChin := 0; m_lipHeight := 0;
                              m_eyeL := (cx * imageW, cy * imageH);
                              m_eyeR := (cx * imageW, cy * imageH) |})
                 goldenTargets = [1; 1; 1; 1; 1]).
  { rewrite relErrors_ratiosOf.
    cbn [m_faceLength m_faceWidth m_eyeDist m_mouthWidth m_noseToChin m_lipHeight].
    rewrite !ratio_zero_den, !relError_of_zero by lra. reflexivity. }
  split.
  { unfold ratiosOf. cbn [map snd m_faceLength m_faceWidth m_eyeDist m_mouthWidth
                           m_noseToChin m_lipHeight].
    now rewrite !ratio_zero_den. }
  split; [exact Hr|].
  split; [rewrite Hr; apply goldenScore_unit_error|].
  pose proof exp_minus5_lower. pose proof exp_minus5_upper.
  replace (-5 * 1) with (-5) by ring. lra.
Qed.

Lemma analyzeGolden_degenerate_witness :
  exists gd,
    analyzeGolden 800 880 (flatFace (1/2) (1/2)) = Some gd /\ score gd = 0.67.
Proof.
  destruct (analyzeGolden_degenerate 800 880 (1/2) (1/2) (flatFace (1/2) (1/2)))
    as [m [gd H]].
  - unfold flatFace. rewrite repeat_length. lia.
  - unfold flatFace. apply Forall_forall. intros p Hp.
    apply repeat_spec in Hp. subst p. split; reflexivity.
  - exists gd. split; apply H.
Defined.

(** *** The end-to-end scenario *)

Lemma round1_IZR (k : Z) : round1 (IZR k) = IZR k.
Proof.
  unfold round1. rewrite <- mult_IZR, Math_round_IZR, mult_IZR. field.
Qed.

Lemma round2_IZR (k : Z) : round2 (IZR k) = IZR k.
Proof.
  unfold round2. rewrite <- mult_IZR, Math_round_IZR, mult_IZR. field.
Qed.

Lemma eyeSpacingOf_ideal (fw ed : R) :
  0 < fw -> 0.28 < ed / fw < 0.36 -> eyeSpacingOf fw ed = (100, ed / fw).
Proof.
  intros Hfw [H1 H2]. unfold eyeSpacingOf.
  rewrite js_gt_pos_true by assumption.
  unfold METHODOLOGY.eyeSpacing.idealMin, METHODOLOGY.eyeSpacing.idealMax.
  replace (js_gt (ed / fw) 0.28) with true by (symmetry; now apply js_gt_true).
  replace (js_lt (ed / fw) 0.36) with true by (symmetry; now apply js_lt_true).
  reflexivity.
Qed.

Lemma harmonyOf_perfect : harmonyOf 100 100 100 = 100.
Proof. unfold harmonyOf. cbn zeta. rewrite clamp_id; lra. Qed.

Lemma overallOf_perfect : overallOf 100 100 100 = Num 10.
Proof.
  unfold overallOf, weightedOf, METHODOLOGY.weights.symmetry,
    METHODOLOGY.weights.golden, METHODOLOGY.weights.harmony.
  replace ((0.35 * 100 + 0.25 * 100 + 0.40 * 100) / 100) with 1 by lra.
  rewrite Math_pow_one. cbn. f_equal.
  unfold Rmin, Rmax.
  destruct (Rle_dec 1 (4 + 1 * 9)); destruct (Rle_dec 10 _); lra.
Qed.

(** The value before rounding is [7.4 + 36/70], about [7.914]. *)
Lemma uniquenessOf_perfect : uniquenessOf 100 100 100 = 7.4 + 36 / 70.
Proof.
  unfold uniquenessOf.
  replace (Rabs (50 - 100)) with 50
    by (unfold Rabs; destruct (Rcase_abs _); lra).
  replace (Rabs (60 - 100)) with 40
    by (unfold Rabs; destruct (Rcase_abs _); lra).
  replace (Rabs (70 - 100)) with 30
    by (unfold Rabs; destruct (Rcase_abs _); lra).
  rewrite clamp_id; lra.
Qed.

Lemma round1_uniqueness_perfect : round1 (7.4 + 36 / 70) = 7.9.
Proof.
  unfold round1. rewrite (Math_round_between 79); lra.
Qed.

Lemma computeOverall_perfect (fw ed : R) :
  0 < fw -> 0.28 < ed / fw < 0.36 ->
  let o := computeOverall 100 100 fw ed in
  harmony o = 100 /\ overall o = Num 10 /\ uniqueness o = 7.9.
Proof.
  intros Hfw Hr. cbn zeta. rewrite computeOverall_unfold.
  rewrite eyeSpacingOf_ideal by assumption. cbn zeta.
  cbn [fst snd harmony overall uniqueness].
  rewrite harmonyOf_perfect, overallOf_perfect, uniquenessOf_perfect.
  split; [apply (round2_IZR 100)|].
  split; [cbn; f_equal; apply (round1_IZR 10)|].
  apply round1_uniqueness_perfect.
Qed.

(** The third ratio being its target [0.32] puts the eye spacing in the
    ideal band. *)
Lemma ideal_eye_ratio (m : Measures) :
  map snd (ratiosOf m) = map snd goldenTargets ->
  0 < m_faceWidth m /\ 0.28 < m_eyeDist m / m_faceWidth m < 0.36.
Proof.
  intros H. unfold ratiosOf, goldenTargets in H. cbn [map snd] in H.
  injection H as _ _ H3 _ _.
  apply ratio_nonzero in H3; [|lra]. destruct H3 as [Hfw ->]. lra.
Qed.

(** C6 (as amended).  For a landmark list whose bilateral pairs are
    mirrored and whose five ratios are the five targets: symmetry is [100],
    the golden score is [100], the eye sub-score is [100] (the third target,
    [0.32], lies in the ideal band), harmony is [100], overall is [10], and
    originality is [7.9], the one-decimal rounding of
    [5 + 4 * (0.4 * 1 + 0.3 * 40/60 + 0.3 * 30/70)], about [7.914]. *)
Theorem ideal_face_scores
  (imageW imageH : R) (lms : list LM.t) (gd : GoldenOut) :
  pairsDefined lms ->
  mirrored lms ->
  analyzeGolden imageW imageH lms = Some gd ->
  map snd (ratios gd) = map snd (targets gd) ->
  calcSymmetryScore lms = Some 100
  /\ score gd = 100
  /\ fst (eyeSpacingOf (faceWidth gd) (eyeDist gd)) = 100
  /\ 0.28 < eyeDist gd / faceWidth gd < 0.36
  /\ (let o := computeOverall 100 (score gd) (faceWidth gd) (eyeDist gd) in
      harmony o = 100 /\ overall o = Num 10 /\ uniqueness o = 7.9)
  /\ clamp (5 + 4 * (0.4 * (Rabs (50 - 100) / 50) + 0.3 * (Rabs (60 - 100) / 60)
                     + 0.3 * (Rabs (70 - 100) / 70))) 1 10 = 7.4 + 36 / 70.
Proof.
  intros Hdef Hmir Hg Heq.
  destruct (analyzeGolden_inv _ _ _ _ Hg) as [m [_ [Er [Et [Es [Efw Eed]]]]]].
  rewrite Er, Et in Heq.
  destruct (ideal_eye_ratio m Heq) as [Hfw Hband].
  assert (Hs : score gd = 100) by (rewrite Es; now apply goldenScore_on_targets).
  rewrite Hs, Efw, Eed.
  split; [now apply calcSymmetryScore_mirrored|].
  split; [reflexivity|].
  split; [now rewrite eyeSpacingOf_ideal|].
  split; [exact Hband|].
  split; [now apply computeOverall_perfect|].
  exact uniquenessOf_perfect.
Qed.

Lemma ideal_face_scores_witness :
  exists gd,
    analyzeGolden 1 1 idealFace = Some gd
    /\ calcSymmetryScore idealFace = Some 100
    /\ score gd = 100
    /\ (let o := computeOverall 100 (score gd) (faceWidth gd) (eyeDist gd) in
        harmony o = 100 /\ overall o = Num 10 /\ uniqueness o = 7.9).
Proof.
  eexists. split; [apply analyzeGolden_unfold, measure_idealFace|].
  destruct (ideal_face_scores 1 1 idealFace _
              pairsDefined_idealFace mirrored_idealFace
              (analyzeGolden_unfold _ _ _ _ measure_idealFace)
              ratios_idealMeasures) as [H1 [H2 [_ [_ [H3 _]]]]].
  split; [exact H1|]. split; [exact H2|]. exact H3.
Defined.

(** C6, the claim as stated fails: on the ideal face the originality is
    [7.9], not [8.1]. *)
Lemma ideal_face_originality_not_8_1 :
  exists gd,
    analyzeGolden 1 1 idealFace = Some gd
    /\ mirrored idealFace
    /\ map snd (ratios gd) = map snd (targets gd)
    /\ calcSymmetryScore idealFace = Some 100
    /\ score gd = 100
    /\ uniqueness (computeOverall 100 (score gd) (faceWidth gd) (eyeDist gd)) = 7.9
    /\ uniqueness (computeOverall 100 (score gd) (faceWidth gd) (eyeDist gd)) <> 8.1.
Proof.
  eexists. split; [apply analyzeGolden_unfold, measure_idealFace|].
  cbn [ratios targets score faceWidth eyeDist].
  split; [exact mirrored_idealFace|].
  split; [exact ratios_idealMeasures|].
  split; [exact (calcSymmetryScore_mirrored _ pairsDefined_idealFace mirrored_idealFace)|].
  rewrite (goldenScore_on_targets _ ratios_idealMeasures).
  destruct (ideal_eye_ratio _ ratios_idealMeasures) as [Hfw Hband].
  destruct (computeOverall_perfect _ _ Hfw Hband) as [_ [_ Hu]].
  split; [reflexivity|]. split; [exact Hu|]. rewrite Hu. lra.
Qed.

(** *** Jitter *)

(** The perturbation never exceeds [sigma] in magnitude. *)
Lemma noise_bounded (sigma u : R) :
  0 <= sigma -> 0 <= u < 1 -> Rabs ((u * 2 - 1) * sigma) <= sigma.
Proof.
  intros Hs Hu.
  assert (H1 : 0 <= u * sigma) by (apply Rmult_le_pos; lra).
  assert (H2 : u * sigma <= 1 * sigma) by (apply Rmult_le_compat_r; lra).
  apply Rabs_le. lra.
Qed.

Lemma jitterPoint_eq (sigma : R) (p : LM.t) (g : Rng) :
  jitterPoint sigma p g =
  (LM.mk (clamp (LM.x p + (g 0%nat * 2 - 1) * sigma) 0 1)
         (clamp (LM.y p + (g 1%nat * 2 - 1) * sigma) 0 1)
         (LM.z p),
   fun n => g (S (S n))).
Proof. reflexivity. Qed.

Lemma jitterLandmarks_cons (sigma : R) (p : LM.t) (lms : list LM.t) (g : Rng) :
  jitterLandmarks (p :: lms) sigma g =
  (fst (jitterPoint sigma p g)
     :: fst (jitterLandmarks lms sigma (fun n => g (S (S n)))),
   snd (jitterLandmarks lms sigma (fun n => g (S (S n))))).
Proof.
  unfold jitterLandmarks. cbn [mapRng]. rewrite jitterPoint_eq.
  destruct (mapRng _ lms _). reflexivity.
Qed.

Lemma jitterLandmarks_nth (sigma : R) (lms : list LM.t) (g : Rng) (i : nat) (p : LM.t) :
  nth_error lms i = Some p ->
  nth_error (fst (jitterLandmarks lms sigma g)) i =
  Some (LM.mk (clamp (LM.x p + (g (2 * i)%nat * 2 - 1) * sigma) 0 1)
              (clamp (LM.y p + (g (2 * i + 1)%nat * 2 - 1) * sigma) 0 1)
              (LM.z p)).
Proof.
  revert g i. induction lms as [|q lms IH]; intros g i H.
  - destruct i; discriminate.
  - rewrite jitterLandmarks_cons. cbn [fst]. destruct i as [|i].
    + injection H as ->. reflexivity.
    + cbn [nth_error] in *. rewrite (IH _ _ H).
      replace (2 * S i)%nat with (S (S (2 * i))) by lia.
      replace (S (S (2 * i)) + 1)%nat with (S (S (2 * i + 1))) by lia.
      reflexivity.
Qed.

(** C5, what the program does.  Each coordinate receives [(2u - 1) * sigma]
    for a fresh draw [u] of [Math.random] in [0,1), a perturbation spread
    evenly over [-sigma, sigma) and never larger than [sigma] in
    magnitude, which a Gaussian of standard deviation [sigma] is not; the
    perturbed coordinate is then clamped into [0,1]. *)
Theorem jitterLandmarks_bounded_noise
  (lms : list LM.t) (sigma : R) (g : Rng) (i : nat) (p : LM.t) :
  rng_ok g ->
  0 <= sigma ->
  nth_error lms i = Some p ->
  exists q,
    nth_error (fst (jitterLandmarks lms sigma g)) i = Some q
    /\ LM.x q = clamp (LM.x p + (g (2 * i)%nat * 2 - 1) * sigma) 0 1
    /\ LM.y q = clamp (LM.y p + (g (2 * i + 1)%nat * 2 - 1) * sigma) 0 1
    /\ LM.z q = LM.z p
    /\ Rabs ((g (2 * i)%nat * 2 - 1) * sigma) <= sigma
    /\ Rabs ((g (2 * i + 1)%nat * 2 - 1) * sigma) <= sigma
    /\ 0 <= LM.x q <= 1 /\ 0 <= LM.y q <= 1.
Proof.
  intros Hg Hs Hp. eexists.
  split; [exact (jitterLandmarks_nth sigma lms g i p Hp)|].
  cbn [LM.x LM.y LM.z].
  do 3 (split; [reflexivity|]).
  split; [apply noise_bounded; [assumption | apply Hg]|].
  split; [apply noise_bounded; [assumption | apply Hg]|].
  split; apply clamp_bounds; lra.
Qed.

Lemma zeroRng_ok : rng_ok zeroRng.
Proof. intros n. unfold zeroRng. lra. Qed.

Lemma jitterLandmarks_bounded_noise_witness :
  exists q,
    nth_error (fst (jitterLandmarks [LM.mk 0.5 0.5 None]
                      METHODOLOGY.uncertainty.jitterSigma zeroRng)) 0 = Some q
    /\ LM.x q = clamp (0.5 + (0 * 2 - 1) * 0.003) 0 1
    /\ Rabs ((0 * 2 - 1) * 0.003) <= 0.003.
Proof.
  destruct (jitterLandmarks_bounded_noise [LM.mk 0.5 0.5 None]
              METHODOLOGY.uncertainty.jitterSigma zeroRng
              0 (LM.mk 0.5 0.5 None) zeroRng_ok)
    as [q [H1 [H2 [_ [_ [H3 _]]]]]].
  - unfold METHODOLOGY.uncertainty.jitterSigma. lra.
  - reflexivity.
  - exists q. split; [exact H1|]. split; [exact H2 | exact H3].
Defined.

(** *** Bootstrap without noise *)



Lemma collect_throws (calc : Calc) (n : nat) (vals : list number) (g : Rng) :
  (forall g, calc g = None) -> collect calc (S n) vals g = None.
Proof. intros H. cbn. now rewrite H. Qed.








Lemma pairsDefined_of_length (lms : list LM.t) :
  (454 < List.length lms)%nat -> pairsDefined lms.
Proof.
  intros H. unfold pairsDefined, symmetricPairs.
  repeat (apply Forall_cons; [cbn [fst snd]; lia|]). apply Forall_nil.
Qed.

Lemma measure_defined (imageW imageH : R) (lms : list LM.t) :
  (454 < List.length lms)%nat -> exists m, measure imageW imageH lms = Some m.
Proof.
  intros H. unfold measure, project.
  repeat match goal with
         | |- context [at_index lms ?i] =>
             let E := fresh "E" in
             destruct (at_index_defined lms i) as [? E]; [lia|];
             rewrite E; clear E; cbn [obind]
         end.
  eauto.
Qed.


Lemma goldenScore_nonneg (errs : list R) : 0 <= goldenScore errs.
Proof.
  unfold goldenScore. cbn zeta.
  set (a := -5 * _). pose proof (exp_pos a) as Ha.
  assert (H : IZR 0 <= Math_round (100 * exp a * 100)).
  { rewrite <- (Math_round_IZR 0). apply Math_round_mono. nra. }
  lra.
Qed.



Section SteadyClosures.
Variables (useW useH : R) (baseLm : list LM.t).
Hypothesis Hunit : Forall inUnit baseLm.







End SteadyClosures.







(** ** Further properties of the engine *)

(** *** When the scores are defined *)

Lemma at_index_short (lms : list LM.t) (i : nat) :
  (List.length lms <= i)%nat -> at_index lms i = None.
Proof. intros H. unfold at_index. now apply nth_error_None. Qed.

Lemma calcSymmetryScore_short (lms : list LM.t) :
  (List.length lms <= 454)%nat -> calcSymmetryScore lms = None.
Proof.
  intros H. unfold calcSymmetryScore, symmetricPairs. cbn [mapM].
  unfold pairDiff at 1. cbn [fst snd].
  rewrite (at_index_short lms 454 H).
  destruct (at_index lms 234); reflexivity.
Qed.

Lemma measure_short (imageW imageH : R) (lms : list LM.t) :
  (List.length lms <= 454)%nat -> measure imageW imageH lms = None.
Proof.
  intros H. unfold measure.
  assert (E : project 454 imageW imageH lms = None).
  { unfold project. now rewrite (at_index_short lms 454 H). }
  rewrite E.
  destruct (project 10 imageW imageH lms); [|reflexivity].
  destruct (project 152 imageW imageH lms); [|reflexivity].
  destruct (project 234 imageW imageH lms); reflexivity.
Qed.

(** X1.  [calcSymmetryScore] and [analyzeGolden] return exactly on the
    landmark lists that hold index 454, the largest they read; on a
    shorter list they throw. *)
Theorem scores_defined_iff (imageW imageH : R) (lms : list LM.t) :
  (calcSymmetryScore lms <> None <-> (454 < List.length lms)%nat)
  /\ (analyzeGolden imageW imageH lms <> None <-> (454 < List.length lms)%nat).
Proof.
  split; split.
  - intros Hn. destruct (Nat.lt_ge_cases 454 (List.length lms)) as [Hl|Hl];
      [exact Hl|]. elim Hn. now apply calcSymmetryScore_short.
  - intros Hl.
    destruct (calcSymmetryScore_bounded lms (pairsDefined_of_length lms Hl))
      as [v [E _]]. rewrite E. discriminate.
  - intros Hn. destruct (Nat.lt_ge_cases 454 (List.length lms)) as [Hl|Hl];
      [exact Hl|]. elim Hn. unfold analyzeGolden.
    now rewrite measure_short.
  - intros Hl. destruct (measure_defined imageW imageH lms Hl) as [m E].
    rewrite (analyzeGolden_unfold _ _ _ _ E). discriminate.
Qed.

(** *** What the symmetry score depends on *)

Lemma mapM_ext {A B : Type} (f g : A -> option B) (l : list A) :
  (forall a, In a l -> f a = g a) -> mapM f l = mapM g l.
Proof.
  induction l as [|a l IH]; intros H; [reflexivity|].
  cbn. rewrite (H a (or_introl eq_refl)), IH; [reflexivity|].
  intros b Hb. apply H. now right.
Qed.

Lemma pairDiff_via_x (lms : list LM.t) (ij : nat * nat) :
  pairDiff lms ij =
  xi <- nth_error (map LM.x lms) (fst ij) ;;
  xj <- nth_error (map LM.x lms) (snd ij) ;;
  Some (Rabs (xi - (1 - xj))).
Proof.
  unfold pairDiff, at_index. rewrite !nth_error_map.
  destruct (nth_error lms (fst ij)); [|reflexivity]. cbn.
  destruct (nth_error lms (snd ij)); reflexivity.
Qed.

(** X2.  The symmetry score reads nothing but the [x] coordinates: two
    landmark lists with the same [x] values, whatever their [y] and [z],
    get the same score (or both throw). *)
Theorem calcSymmetryScore_x_only (l1 l2 : list LM.t) :
  map LM.x l1 = map LM.x l2 ->
  calcSymmetryScore l1 = calcSymmetryScore l2.
Proof.
  intros H. unfold calcSymmetryScore.
  rewrite (mapM_ext (pairDiff l1) (pairDiff l2)); [reflexivity|].
  intros ij _. now rewrite !pairDiff_via_x, H.
Qed.

Lemma calcSymmetryScore_x_only_witness :
  calcSymmetryScore (flatFace (1/2) 0) = calcSymmetryScore (flatFace (1/2) 1).
Proof.
  apply (calcSymmetryScore_x_only (flatFace (1/2) 0) (flatFace (1/2) 1)).
  unfold flatFace. now rewrite !map_repeat.
Defined.

(** X3.  Mirroring every landmark about [x = 1/2] leaves the symmetry
    score unchanged. *)
Theorem calcSymmetryScore_flip (lms : list LM.t) :
  calcSymmetryScore (map flipX lms) = calcSymmetryScore lms.
Proof.
  unfold calcSymmetryScore.
  rewrite (mapM_ext (pairDiff (map flipX lms)) (pairDiff lms)); [reflexivity|].
  intros ij _. rewrite !pairDiff_via_x, map_map. cbn [flipX LM.x].
  rewrite !nth_error_map.
  destruct (nth_error lms (fst ij)) as [pi|]; [|reflexivity]. cbn.
  destruct (nth_error lms (snd ij)) as [pj|]; [|reflexivity]. cbn.
  f_equal.
  replace (1 - LM.x pi - (1 - (1 - LM.x pj)))
    with (- (LM.x pi - (1 - LM.x pj))) by ring.
  apply Rabs_Ropp.
Qed.

(** *** Scores on the grid of hundredths *)

Lemma round2_of_hundredths (k : Z) : round2 (IZR k / 100) = IZR k / 100.
Proof.
  unfold round2. replace (IZR k / 100 * 100) with (IZR k) by field.
  now rewrite Math_round_IZR.
Qed.

Lemma calcSymmetryScore_grid (lms : list LM.t) (v : R) :
  calcSymmetryScore lms = Some v -> exists k : Z, v = IZR k / 100.
Proof.
  unfold calcSymmetryScore. destruct (mapM _ _) as [diffs|]; [|discriminate].
  cbn. intros H. injection H as <-.
  unfold Math_round, Rmax. destruct (Rle_dec 0 _).
  - eexists. reflexivity.
  - exists 0%Z. unfold Rdiv. ring.
Qed.

(** X4.  The symmetry score and the golden score are whole numbers of
    hundredths, so the [round2] that [analyze] applies before displaying
    them changes nothing. *)
Theorem displayed_scores_exact
  (imageW imageH : R) (lms : list LM.t) (v : R) (gd : GoldenOut) :
  calcSymmetryScore lms = Some v ->
  analyzeGolden imageW imageH lms = Some gd ->
  round2 v = v /\ round2 (score gd) = score gd
  /\ (exists k : Z, v = IZR k / 100) /\ (exists k : Z, score gd = IZR k / 100).
Proof.
  intros Hs Hg.
  destruct (calcSymmetryScore_grid lms v Hs) as [k Hk].
  destruct (analyzeGolden_inv _ _ _ _ Hg) as [m [_ [_ [_ [Es _]]]]].
  assert (Hk' : exists k' : Z, score gd = IZR k' / 100).
  { rewrite Es. unfold goldenScore, Math_round. eexists. reflexivity. }
  destruct Hk' as [k' Hk'].
  split; [rewrite Hk; apply round2_of_hundredths|].
  split; [rewrite Hk'; apply round2_of_hundredths|].
  split; eauto.
Qed.

Lemma displayed_scores_exact_witness :
  round2 100 = 100.
Proof.
  destruct (displayed_scores_exact 1 1 idealFace 100 _
              (calcSymmetryScore_mirrored _ pairsDefined_idealFace mirrored_idealFace)
              (analyzeGolden_unfold _ _ _ _ measure_idealFace)) as [H _].
  exact H.
Defined.

(** *** The floor of the symmetry score *)

Lemma sum_lower (c : R) (l : list R) :
  Forall (fun d => c <= d) l -> c * INR (List.length l) <= sum l.
Proof.
  induction 1 as [|d l Hd _ IH].
  - unfold sum. cbn. lra.
  - rewrite sum_cons. cbn [List.length]. rewrite S_INR. lra.
Qed.

(** X5.  The symmetry score floors at [0]: when every bilateral pair is
    off its mirror position by at least [0.1], the score is exactly [0]. *)
Theorem calcSymmetryScore_floor (lms : list LM.t) :
  pairsDefined lms ->
  (forall ij pi pj,
      In ij symmetricPairs ->
      at_index lms (fst ij) = Some pi ->
      at_index lms (snd ij) = Some pj ->
      0.1 <= Rabs (LM.x pi - (1 - LM.x pj))) ->
  calcSymmetryScore lms = Some 0.
Proof.
  intros Hdef Hoff.
  destruct (mapM_Forall (pairDiff lms) (fun d => 0.1 <= d) symmetricPairs)
    as [diffs [E [Hd Hlen]]].
  { unfold pairsDefined in Hdef. rewrite Forall_forall in *.
    intros ij Hin. destruct (Hdef ij Hin) as [Hi Hj].
    destruct (at_index_defined lms _ Hi) as [pi Ei].
    destruct (at_index_defined lms _ Hj) as [pj Ej].
    unfold pairDiff. rewrite Ei, Ej. cbn.
    eexists; split; [reflexivity|]. now apply (Hoff ij). }
  unfold calcSymmetryScore. rewrite E. cbn [obind]. f_equal.
  apply sum_lower in Hd. rewrite Hlen in *.
  change (List.length symmetricPairs) with 15%nat in *.
  assert (H15 : INR 15 = 15) by (simpl; lra). rewrite H15 in *.
  assert (Hr : Math_round ((100 - sum diffs / 15 * 1000) * 100) <= IZR 0).
  { rewrite <- (Math_round_IZR 0). apply Math_round_mono. lra. }
  unfold Rmax. destruct (Rle_dec 0 _); lra.
Qed.

Lemma calcSymmetryScore_floor_witness :
  calcSymmetryScore (flatFace 1 0) = Some 0.
Proof.
  apply (calcSymmetryScore_floor (flatFace 1 0)).
  - apply pairsDefined_of_length. unfold flatFace. rewrite repeat_length. lia.
  - intros ij pi pj _ Hi Hj.
    apply nth_error_In, repeat_spec in Hi. apply nth_error_In, repeat_spec in Hj.
    subst. cbn [LM.x]. replace (1 - (1 - 1)) with 1 by ring.
    rewrite Rabs_R1. lra.
Defined.

(** *** Range of the golden score *)

Lemma exp_nonpos_le_1 (a : R) : a <= 0 -> exp a <= 1.
Proof.
  intros [H|H].
  - rewrite <- exp_0. left. now apply exp_increasing.
  - subst. rewrite exp_0. lra.
Qed.

Lemma euclid_nonneg (p q : R * R) : 0 <= euclid p q.
Proof. unfold euclid, Math_hypot. apply sqrt_pos. Qed.

Lemma ratio_nonneg (num den : R) : 0 <= num -> 0 <= ratio num den.
Proof.
  intros Hn. unfold ratio. destruct (js_gt den 0) eqn:E; [|lra].
  apply js_gt_true in E. apply Rmult_le_pos; [exact Hn|].
  left. now apply Rinv_0_lt_compat.
Qed.

Lemma measure_nonneg (imageW imageH : R) (lms : list LM.t) (m : Measures) :
  measure imageW imageH lms = Some m ->
  0 <= m_faceLength m /\ 0 <= m_faceWidth m /\ 0 <= m_eyeDist m
  /\ 0 <= m_mouthWidth m /\ 0 <= m_noseToChin m /\ 0 <= m_lipHeight m.
Proof.
  unfold measure.
  repeat match goal with
         | |- context [project ?i imageW imageH lms] =>
             destruct (project i imageW imageH lms); [|discriminate]; cbn [obind]
         end.
  intros H. injection H as <-. cbn.
  repeat split; apply euclid_nonneg.
Qed.

Lemma relError_entry_nonneg (r t : R) : 0 < t -> 0 <= Rabs (r - t) / t.
Proof.
  intros Ht. apply Rmult_le_pos; [apply Rabs_pos|].
  left. now apply Rinv_0_lt_compat.
Qed.

Lemma goldenScore_le_100 (errs : list R) :
  Forall (fun e => 0 <= e) errs -> goldenScore errs <= 100.
Proof.
  intros H. unfold goldenScore. cbn zeta.
  apply sum_nonneg in H.
  assert (Hn : 0 <= INR (List.length errs)) by apply pos_INR.
  assert (Ha : 0 <= sum errs / INR (List.length errs)).
  { destruct Hn as [Hn|Hn].
    - apply Rmult_le_pos; [exact H|]. left. now apply Rinv_0_lt_compat.
    - rewrite <- Hn. unfold Rdiv. rewrite Rinv_0. lra. }
  pose proof (exp_nonpos_le_1 (-5 * (sum errs / INR (List.length errs)))
                ltac:(lra)) as He.
  pose proof (exp_pos (-5 * (sum errs / INR (List.length errs)))) as Hp.
  assert (Hr : Math_round (100 * exp (-5 * (sum errs / INR (List.length errs))) * 100)
               <= IZR 10000).
  { rewrite <- (Math_round_IZR 10000). apply Math_round_mono. lra. }
  lra.
Qed.

(** X6.  Whenever [analyzeGolden] returns, its score lies in [0,100], the
    five ratios are not negative, and neither are the face width and the
    eye distance it hands to [computeOverall]. *)
Theorem analyzeGolden_range
  (imageW imageH : R) (lms : list LM.t) (gd : GoldenOut) :
  analyzeGolden imageW imageH lms = Some gd ->
  0 <= score gd <= 100
  /\ Forall (fun kv => 0 <= snd kv) (ratios gd)
  /\ 0 <= faceWidth gd /\ 0 <= eyeDist gd.
Proof.
  intros H.
  destruct (analyzeGolden_inv _ _ _ _ H) as [m [Em [Er [_ [Es [Efw Eed]]]]]].
  destruct (measure_nonneg _ _ _ _ Em) as [H1 [H2 [H3 [H4 [H5 H6]]]]].
  rewrite Er, Es, Efw, Eed.
  split; [split; [apply goldenScore_nonneg|]|].
  - apply goldenScore_le_100. rewrite relErrors_ratiosOf.
    repeat (apply Forall_cons; [apply relError_entry_nonneg; lra|]).
    apply Forall_nil.
  - split; [|split; assumption].
    unfold ratiosOf.
    repeat (apply Forall_cons; [cbn [snd]; now apply ratio_nonneg|]).
    apply Forall_nil.
Qed.

Lemma analyzeGolden_range_witness :
  exists gd, analyzeGolden 800 880 (flatFace (1/2) (1/2)) = Some gd
             /\ 0 <= score gd <= 100.
Proof.
  destruct (measure_defined 800 880 (flatFace (1/2) (1/2))) as [m Em].
  - unfold flatFace. rewrite repeat_length. lia.
  - eexists. split; [exact (analyzeGolden_unfold _ _ _ _ Em)|].
    apply (analyzeGolden_range 800 880 (flatFace (1/2) (1/2))).
    exact (analyzeGolden_unfold _ _ _ _ Em).
Defined.

(** *** More on the composite indices *)

Lemma eyeScore_at_least_60 (fw ed : R) : 60 <= fst (eyeSpacingOf fw ed) <= 100.
Proof.
  unfold eyeSpacingOf.
  destruct (js_gt fw 0); [|cbn; lra].
  destruct (_ && _); [cbn; lra|].
  destruct (_ || _); cbn; lra.
Qed.

(** X9.  The returned originality never goes below [5], whatever the
    inputs; for [symmetry] and [golden] in [0,100] it never exceeds [8.7]. *)
Theorem uniqueness_range (symmetry golden faceWidth eyeDist : R) :
  let u := uniqueness (computeOverall symmetry golden faceWidth eyeDist) in
  5 <= u <= 10
  /\ (0 <= symmetry <= 100 -> 0 <= golden <= 100 -> u <= 8.7).
Proof.
  cbn zeta. rewrite computeOverall_unfold. cbn zeta. cbn [uniqueness].
  set (h := harmonyOf symmetry golden (fst (eyeSpacingOf faceWidth eyeDist))).
  pose proof (harmonyOf_bounds symmetry golden
                (fst (eyeSpacingOf faceWidth eyeDist))) as Hh. fold h in Hh.
  pose proof (uniquenessOf_bounds symmetry golden h) as Hu.
  pose proof (Rabs_pos (50 - symmetry)) as A1.
  pose proof (Rabs_pos (60 - golden)) as A2.
  pose proof (Rabs_pos (70 - h)) as A3.
  assert (Hlow : 5 <= uniquenessOf symmetry golden h).
  { unfold uniquenessOf, clamp, Rmin, Rmax.
    destruct (Rle_dec 1 _); destruct (Rle_dec 10 _); lra. }
  split.
  - assert (Hb : IZR 50 <= uniquenessOf symmetry golden h * 10 <= IZR 100) by lra.
    apply round1_bounds in Hb. lra.
  - intros Hs Hg.
    assert (B1 : Rabs (50 - symmetry) <= 50) by (apply Rabs_le; lra).
    assert (B2 : Rabs (60 - golden) <= 60) by (apply Rabs_le; lra).
    assert (B3 : Rabs (70 - h) <= 50) by (apply Rabs_le; lra).
    assert (Hup : uniquenessOf symmetry golden h * 10 <= IZR 87).
    { unfold uniquenessOf, clamp, Rmin, Rmax.
      destruct (Rle_dec 1 _); destruct (Rle_dec 10 _); lra. }
    assert (Hb : IZR 50 <= uniquenessOf symmetry golden h * 10 <= IZR 87) by lra.
    apply round1_bounds in Hb. lra.
Qed.

Lemma uniqueness_range_witness :
  5 <= uniqueness (computeOverall 0 0 0 0) <= 8.7.
Proof.
  destruct (uniqueness_range 0 0 0 0) as [[H1 _] H2].
  split; [exact H1 | apply H2; lra].
Defined.

Lemma clamp_above (v lo hi : R) : lo <= hi -> hi <= v -> clamp v lo hi = hi.
Proof.
  intros H1 H2. unfold clamp, Rmin, Rmax.
  destruct (Rle_dec lo v); destruct (Rle_dec hi _); lra.
Qed.

Lemma clamp_mono (a b lo hi : R) : a <= b -> clamp a lo hi <= clamp b lo hi.
Proof.
  intros H. unfold clamp, Rmin, Rmax.
  destruct (Rle_dec lo a); destruct (Rle_dec lo b);
    repeat destruct (Rle_dec hi _); lra.
Qed.

Lemma round1_mono (a b : R) : a <= b -> round1 a <= round1 b.
Proof.
  intros H. unfold round1.
  pose proof (Math_round_mono (a * 10) (b * 10) ltac:(lra)). lra.
Qed.

Lemma round2_mono (a b : R) : a <= b -> round2 a <= round2 b.
Proof.
  intros H. unfold round2.
  pose proof (Math_round_mono (a * 100) (b * 100) ltac:(lra)). lra.
Qed.

Lemma Math_pow_mono (a b e : R) :
  0 <= e -> 0 <= a <= b ->
  exists pa pb, Math_pow a e = Num pa /\ Math_pow b e = Num pb /\ 0 <= pa <= pb.
Proof.
  intros He [Ha Hab]. unfold Math_pow.
  destruct (Rlt_dec 0 a) as [Hpa|Hna].
  - destruct (Rlt_dec 0 b); [|lra].
    do 2 eexists. repeat split.
    + left. apply exp_pos.
    + apply Rle_Rpower_l; lra.
  - destruct (Req_dec_T a 0); [|lra].
    destruct (Rlt_dec 0 b).
    + do 2 eexists. repeat split; [lra|]. left. apply exp_pos.
    + destruct (Req_dec_T b 0); [|lra].
      do 2 eexists. repeat split; lra.
Qed.

Lemma harmonyOf_mono (s s' g g' e : R) :
  s <= s' -> g <= g' -> harmonyOf s g e <= harmonyOf s' g' e.
Proof. intros. unfold harmonyOf. apply clamp_mono. lra. Qed.

Lemma overallOf_mono (s s' g g' h h' : R) :
  0 <= s <= s' -> 0 <= g <= g' -> 0 <= h <= h' ->
  exists v v', overallOf s g h = Num v /\ overallOf s' g' h' = Num v' /\ v <= v'.
Proof.
  intros Hs Hg Hh. unfold overallOf. cbn zeta.
  destruct (Math_pow_mono (weightedOf s g h / 100) (weightedOf s' g' h' / 100) 1.8)
    as [pa [pb [-> [-> Hp]]]]; [lra| |].
  { pose proof (weightedOf_nonneg s g h ltac:(lra) ltac:(lra) ltac:(lra)).
    unfold weightedOf, METHODOLOGY.weights.symmetry, METHODOLOGY.weights.golden,
      METHODOLOGY.weights.harmony in *. lra. }
  cbn. do 2 eexists. repeat split.
  apply (clamp_mono (4 + pa * 9) (4 + pb * 9) 1 10). lra.
Qed.

(** X10.  A better symmetry or golden score never lowers the returned
    harmony or the returned overall index (inputs not negative, same eye
    geometry). *)
Theorem computeOverall_monotone (s s' g g' faceWidth eyeDist : R) :
  0 <= s <= s' -> 0 <= g <= g' ->
  let o := computeOverall s g faceWidth eyeDist in
  let o' := computeOverall s' g' faceWidth eyeDist in
  harmony o <= harmony o'
  /\ exists v v', overall o = Num v /\ overall o' = Num v' /\ v <= v'.
Proof.
  intros Hs Hg. cbn zeta. rewrite !computeOverall_unfold. cbn zeta.
  cbn [harmony overall].
  set (e := fst (eyeSpacingOf faceWidth eyeDist)).
  pose proof (harmonyOf_mono s s' g g' e ltac:(lra) ltac:(lra)) as Hm.
  pose proof (harmonyOf_bounds s g e) as Hb.
  split; [now apply round2_mono|].
  destruct (overallOf_mono s s' g g' (harmonyOf s g e) (harmonyOf s' g' e))
    as [v [v' [-> [-> Hv]]]]; try lra.
  cbn. do 2 eexists. repeat split. now apply round1_mono.
Qed.

Lemma computeOverall_monotone_witness :
  harmony (computeOverall 50 60 100 32) <= harmony (computeOverall 90 60 100 32).
Proof.
  destruct (computeOverall_monotone 50 90 60 60 100 32) as [H _]; [lra | lra |].
  exact H.
Defined.

(** [0.8 ^ 1.8 >= 2/3]: its fifth power is [0.8 ^ 9]. *)
Lemma Rpower_08_18 : 2 / 3 <= Rpower 0.8 1.8.
Proof.
  set (p := Rpower 0.8 1.8).
  assert (Hp : 0 < p) by (unfold p, Rpower; apply exp_pos).
  assert (H5 : p ^ 5 = 0.8 ^ 9).
  { rewrite <- (Rpower_pow 5 p Hp), <- (Rpower_pow 9 0.8) by lra.
    unfold p. rewrite Rpower_mult. f_equal. simpl. lra. }
  destruct (Rle_dec (2 / 3) p) as [H|H]; [exact H|].
  assert (Hc : p ^ 5 <= (2 / 3) ^ 5) by (apply pow_incr; lra).
  rewrite H5 in Hc. simpl in Hc. lra.
Qed.

Lemma overallOf_saturates (s g h : R) :
  80 <= weightedOf s g h -> overallOf s g h = Num 10.
Proof.
  intros H. unfold overallOf. cbn zeta. unfold Math_pow.
  destruct (Rlt_dec 0 (weightedOf s g h / 100)); [|lra].
  pose proof Rpower_08_18 as H0.
  pose proof (Rle_Rpower_l 0.8 (weightedOf s g h / 100) 1.8
                ltac:(lra) ltac:(lra)) as H1.
  cbn. f_equal. apply clamp_above; lra.
Qed.

(** X11.  The overall index saturates: it is exactly [10] as soon as the
    weighted blend reaches [80], in particular as soon as [symmetry] and
    [golden] both reach [82], whatever the eye geometry. *)
Theorem overall_saturates (symmetry golden faceWidth eyeDist : R) :
  let h := harmonyOf symmetry golden (fst (eyeSpacingOf faceWidth eyeDist)) in
  (80 <= weightedOf symmetry golden h ->
   overall (computeOverall symmetry golden faceWidth eyeDist) = Num 10)
  /\ (82 <= symmetry -> 82 <= golden ->
      overall (computeOverall symmetry golden faceWidth eyeDist) = Num 10).
Proof.
  cbn zeta. rewrite computeOverall_unfold. cbn zeta. cbn [overall].
  assert (Hsat : 80 <= weightedOf symmetry golden
                         (harmonyOf symmetry golden
                            (fst (eyeSpacingOf faceWidth eyeDist))) ->
                 n_round1 (overallOf symmetry golden
                             (harmonyOf symmetry golden
                                (fst (eyeSpacingOf faceWidth eyeDist)))) = Num 10).
  { intros H. rewrite overallOf_saturates by exact H.
    cbn. f_equal. apply (round1_IZR 10). }
  split; [exact Hsat|].
  intros Hs Hg. apply Hsat.
  pose proof (eyeScore_at_least_60 faceWidth eyeDist) as He.
  assert (Hh : 77.6 <= harmonyOf symmetry golden
                         (fst (eyeSpacingOf faceWidth eyeDist))).
  { unfold harmonyOf, clamp, Rmin, Rmax. cbn zeta.
    destruct (Rle_dec 20 _); destruct (Rle_dec 100 _); lra. }
  unfold weightedOf, METHODOLOGY.weights.symmetry, METHODOLOGY.weights.golden,
    METHODOLOGY.weights.harmony. lra.
Qed.

Lemma overall_saturates_witness :
  overall (computeOverall 85 90 100 20) = Num 10.
Proof.
  destruct (overall_saturates 85 90 100 20) as [_ H]. apply H; lra.
Defined.

(** *** Feedback and eye score *)

Lemma feedbackLines_shape (s g r : R) :
  exists l1 l2,
    feedbackLines s g r = l1 :: l2 :: eyeSentences r ++ [fb_disclaimer]
    /\ In l1 [fb_symHigh; fb_symGood; fb_symLow]
    /\ In l2 [fb_goldHigh; fb_goldGood; fb_goldLow].
Proof.
  unfold feedbackLines, eyeSentences. cbn zeta.
  destruct (js_gt s 90); destruct (js_gt s 75);
    destruct (js_gt g 90); destruct (js_gt g 75);
    cbn [app]; do 2 eexists; (split; [reflexivity|]); cbn [In]; tauto.
Qed.

Lemma eye_sentence_in_iff (e l1 l2 : string) (l3 : list string) :
  In e [fb_eyeIdeal; fb_eyeNarrow; fb_eyeWide] ->
  In l1 [fb_symHigh; fb_symGood; fb_symLow] ->
  In l2 [fb_goldHigh; fb_goldGood; fb_goldLow] ->
  (In e (l1 :: l2 :: l3 ++ [fb_disclaimer]) <-> In e l3).
Proof.
  intros He H1 H2. cbn [In] in He, H1, H2. split.
  - intros [H|[H|H]].
    + exfalso. destruct He as [He|[He|[He|[]]]];
        destruct H1 as [H1|[H1|[H1|[]]]]; subst; unfold_fb; discriminate H.
    + exfalso. destruct He as [He|[He|[He|[]]]];
        destruct H2 as [H2|[H2|[H2|[]]]]; subst; unfold_fb; discriminate H.
    + apply in_app_or in H. destruct H as [H|[H|[]]]; [exact H|].
      exfalso. destruct He as [He|[He|[He|[]]]];
        subst; unfold_fb; discriminate H.
  - intros H. right. right. apply in_or_app. now left.
Qed.

Lemma eye_sentences_distinct :
  fb_eyeIdeal <> fb_eyeNarrow /\ fb_eyeIdeal <> fb_eyeWide
  /\ fb_eyeNarrow <> fb_eyeWide.
Proof. unfold_fb. repeat split; discriminate. Qed.

Lemma eyeSpacingOf_snd (fw ed : R) : 0 < fw -> snd (eyeSpacingOf fw ed) = ed / fw.
Proof.
  intros H. unfold eyeSpacingOf. rewrite js_gt_pos_true by exact H.
  destruct (_ && _); [reflexivity|]. destruct (_ || _); reflexivity.
Qed.

(** X12.  With a positive face width and eye distance the feedback agrees
    with the eye sub-score: the "harmonious" sentence appears exactly when
    the sub-score is [100], a "narrow" or "wide" sentence exactly when it is
    [60], and in the intermediate bands (sub-score [80]) the feedback says
    nothing about the eyes and has three lines instead of four. *)
Theorem feedback_matches_eye_score (symmetry golden faceWidth eyeDist : R) :
  0 < faceWidth -> 0 < eyeDist ->
  let es := eyeSpacingOf faceWidth eyeDist in
  let lines := feedbackLines symmetry golden (snd es) in
  (In fb_eyeIdeal lines <-> fst es = 100)
  /\ (In fb_eyeNarrow lines \/ In fb_eyeWide lines <-> fst es = 60)
  /\ (List.length lines = 3%nat <-> fst es = 80)
  /\ (List.length lines = 3%nat \/ List.length lines = 4%nat).
Proof.
  intros Hfw Hed. cbn zeta.
  destruct (feedbackLines_shape symmetry golden
              (snd (eyeSpacingOf faceWidth eyeDist))) as [l1 [l2 [E [H1 H2]]]].
  rewrite E, (eyeSpacingOf_snd _ _ Hfw).
  rewrite !(eye_sentence_in_iff _ l1 l2) by (assumption || (cbn [In]; tauto)).
  cbn [List.length]. rewrite length_app. cbn [List.length].
  destruct eye_sentences_distinct as [D1 [D2 D3]].
  assert (Hr : 0 < eyeDist / faceWidth).
  { apply Rmult_lt_0_compat; [exact Hed | now apply Rinv_0_lt_compat]. }
  unfold eyeSpacingOf. rewrite js_gt_pos_true by exact Hfw.
  set (r := eyeDist / faceWidth) in *.
  unfold eyeSentences.
  unfold METHODOLOGY.eyeSpacing.idealMin, METHODOLOGY.eyeSpacing.idealMax,
    METHODOLOGY.eyeSpacing.low, METHODOLOGY.eyeSpacing.high.
  destruct (js_gt r 0.28) eqn:E1; destruct (js_lt r 0.36) eqn:E2;
    destruct (js_le r 0.26) eqn:E3; destruct (js_ge r 0.38) eqn:E4;
    cbn [andb orb fst snd];
    rewrite ?js_gt_pos_true by exact Hr;
    cbn [List.length In Nat.add];
    try apply js_gt_true in E1; try apply js_gt_false in E1;
    try apply js_lt_true in E2; try apply js_lt_false in E2;
    try apply js_le_true in E3; try apply js_le_false in E3;
    try apply js_ge_true in E4; try apply js_ge_false in E4;
    try (exfalso; lra);
    repeat split; intros; try lra; try lia; try tauto;
    try (exfalso; lra); try (exfalso; lia);
    try (left; left; reflexivity); try (right; left; reflexivity);
    intuition congruence.
Qed.

Lemma feedback_matches_eye_score_witness :
  In fb_eyeIdeal (feedbackLines 80 80 (snd (eyeSpacingOf 100 32)))
  <-> fst (eyeSpacingOf 100 32) = 100.
Proof.
  destruct (feedback_matches_eye_score 80 80 100 32) as [H _]; [lra | lra |].
  exact H.
Defined.

(** *** Invariants of the jitter *)

Lemma jitterPoint_inUnit (sigma : R) (p : LM.t) (g : Rng) :
  inUnit (fst (jitterPoint sigma p g)).
Proof.
  rewrite jitterPoint_eq. unfold inUnit. cbn [fst LM.x LM.y].
  split; apply clamp_bounds; lra.
Qed.

Lemma jitterLandmarks_length (sigma : R) (lms : list LM.t) (g : Rng) :
  List.length (fst (jitterLandmarks lms sigma g)) = List.length lms.
Proof.
  revert g. induction lms as [|q lms IH]; intros g.
  - reflexivity.
  - rewrite jitterLandmarks_cons. cbn. now rewrite IH.
Qed.

(** X13.  Whatever the amplitude and the random draws, the jittered list
    has the length of its input, every jittered point lies in the unit
    square (even when the input point does not), the [z] values are kept,
    and exactly two draws per landmark are consumed. *)
Theorem jitterLandmarks_invariants (lms : list LM.t) (sigma : R) (g : Rng) :
  let out := jitterLandmarks lms sigma g in
  List.length (fst out) = List.length lms
  /\ Forall inUnit (fst out)
  /\ map LM.z (fst out) = map LM.z lms
  /\ forall n, snd out n = g (2 * List.length lms + n)%nat.
Proof.
  cbn zeta. revert g. induction lms as [|p lms IH]; intros g.
  - repeat split. constructor.
  - rewrite jitterLandmarks_cons. cbn [fst snd].
    destruct (IH (fun n => g (S (S n)))) as [H1 [H2 [H3 H4]]].
    split; [cbn; now rewrite H1|].
    split; [constructor; [apply jitterPoint_inUnit | exact H2]|].
    split; [cbn [map]; rewrite H3, jitterPoint_eq; reflexivity|].
    intros n. rewrite H4. f_equal. cbn [List.length]. lia.
Qed.

(** *** Statistics of real samples *)

Lemma n_sum_reals_acc (rs : list R) (a : R) :
  fold_left (fun a b => n_add a b) (map Num rs) (Num a) = Num (a + sum rs).
Proof.
  revert a. induction rs as [|r rs IH]; intros a.
  - cbn. f_equal. unfold sum. cbn. ring.
  - cbn [map fold_left]. cbn [n_add n_lift2]. rewrite IH, sum_cons.
    f_equal. ring.
Qed.

Lemma sq_sum_reals_acc (m : R) (rs : list R) (a : R) :
  fold_left (fun a b => n_add a (n_mul (n_sub b (Num m)) (n_sub b (Num m))))
            (map Num rs) (Num a)
  = Num (a + sum (map (fun b => (b - m) * (b - m)) rs)).
Proof.
  revert a. induction rs as [|r rs IH]; intros a.
  - cbn. f_equal. unfold sum. cbn. ring.
  - cbn [map fold_left]. cbn [n_add n_mul n_sub n_lift2]. rewrite IH, sum_cons.
    f_equal. ring.
Qed.

Lemma sum_upper (c : R) (l : list R) :
  Forall (fun d => d <= c) l -> sum l <= c * INR (List.length l).
Proof.
  induction 1 as [|d l Hd _ IH].
  - unfold sum. cbn. lra.
  - rewrite sum_cons. cbn [List.length]. rewrite S_INR. lra.
Qed.

(** Mean and spread of a non-empty sample of reals between [lo] and [hi]. *)
Lemma statsOf_reals (rs : list R) (lo hi : R) :
  rs <> [] ->
  Forall (fun r => lo <= r <= hi) rs ->
  exists m s,
    statsOf (map Num rs) = {| mean := Num m; sd := Num s; ci95 := Num (1.96 * s) |}
    /\ lo <= m <= hi /\ 0 <= s <= hi - lo.
Proof.
  intros Hne Hall.
  remember (List.length rs) as n eqn:En.
  assert (Hn : 0 < INR n).
  { apply lt_0_INR. subst n. destruct rs; [congruence|cbn; lia]. }
  set (m := sum rs / INR n).
  assert (Hm : lo <= m <= hi).
  { assert (H1 : lo * INR n <= sum rs).
    { rewrite En. apply sum_lower.
      eapply Forall_impl; [|exact Hall]. intros r Hr. apply Hr. }
    assert (H2 : sum rs <= hi * INR n).
    { rewrite En. apply sum_upper.
      eapply Forall_impl; [|exact Hall]. intros r Hr. apply Hr. }
    subst m. split.
    - apply (Rmult_le_reg_r (INR n)); [exact Hn|].
      replace (sum rs / INR n * INR n) with (sum rs) by (field; lra). exact H1.
    - apply (Rmult_le_reg_r (INR n)); [exact Hn|].
      replace (sum rs / INR n * INR n) with (sum rs) by (field; lra). exact H2. }
  set (q := sum (map (fun b => (b - m) * (b - m)) rs)).
  assert (Hq : 0 <= q <= (hi - lo) * (hi - lo) * INR n).
  { subst q. split.
    - apply sum_nonneg. apply Forall_map, Forall_forall. intros b _.
      cbn beta. apply Rle_0_sqr.
    - rewrite En, <- (length_map (fun b => (b - m) * (b - m)) rs).
      apply sum_upper. apply Forall_map.
      eapply Forall_impl; [|exact Hall]. cbn beta. intros b Hb.
      assert (H1 : 0 <= (hi - lo - (b - m)) * (hi - lo + (b - m)))
        by (apply Rmult_le_pos; lra).
      lra. }
  assert (Hqn : 0 <= q / INR n).
  { apply Rmult_le_pos; [lra|]. left. now apply Rinv_0_lt_compat. }
  exists m, (sqrt (q / INR n)).
  split.
  - unfold statsOf. rewrite length_map, <- En.
    unfold n_sum. rewrite n_sum_reals_acc.
    assert (Hd : forall a, n_div_length (Num (0 + a)) n = Num (a / INR n)).
    { intros a. destruct n as [|k]; [cbn in Hn; lra|].
      cbn [n_div_length n_lift1]. f_equal. field. lra. }
    rewrite Hd. fold m. rewrite sq_sum_reals_acc. fold q. rewrite Hd.
    cbn [Math_sqrt].
    destruct (Rlt_dec (q / INR n) 0) as [Hneg|_]; [lra|reflexivity].
  - split; [exact Hm|]. split; [apply sqrt_pos|].
    assert (Hw : 0 <= hi - lo) by lra.
    rewrite <- (sqrt_square (hi - lo)) by exact Hw.
    apply sqrt_le_1_alt.
    apply (Rmult_le_reg_r (INR n)); [exact Hn|].
    replace (q / INR n * INR n) with q by (field; lra). lra.
Qed.

Lemma collect_ranged (calc : Calc) (lo hi : R) :
  ranged calc lo hi ->
  forall n rs g,
    Forall (fun r => lo <= r <= hi) rs ->
    exists rs' g',
      collect calc n (map Num rs) g = Some (map Num rs', g')
      /\ Forall (fun r => lo <= r <= hi) rs'
      /\ List.length rs' = (List.length rs + n)%nat.
Proof.
  intros Hc. induction n as [|n IH]; intros rs g Hrs.
  - exists rs, g. repeat split; [exact Hrs | lia].
  - destruct (Hc g) as [r [g1 [E Hr]]]. cbn [collect]. rewrite E.
    cbn [obind fst snd].
    destruct (IH (rs ++ [r]) g1) as [rs' [g' [E' [H1 H2]]]].
    { apply Forall_app. split; [exact Hrs | now constructor]. }
    exists rs', g'. rewrite map_app in E'. cbn [map] in E'.
    repeat split; [exact E' | exact H1 |].
    rewrite H2, length_app. cbn. lia.
Qed.

Lemma withUncertainty_ranged (calc : Calc) (repeats : nat) (g : Rng) (lo hi : R) :
  (1 <= repeats)%nat ->
  ranged calc lo hi ->
  exists m s g',
    withUncertainty calc repeats g
    = Some ({| mean := Num m; sd := Num s; ci95 := Num (1.96 * s) |}, g')
    /\ lo <= m <= hi /\ 0 <= s <= hi - lo.
Proof.
  intros Hrep Hc.
  destruct (collect_ranged calc lo hi Hc repeats [] g (Forall_nil _))
    as [rs [g' [E [Hrs Hlen]]]].
  destruct (statsOf_reals rs lo hi) as [m [s [Est [Hm Hs]]]]; [|exact Hrs|].
  { intros ->. cbn in Hlen. lia. }
  exists m, s, g'. unfold withUncertainty. cbn [map] in E. rewrite E.
  cbn [obind fst snd]. rewrite Est. repeat split; lra.
Qed.

(** *** Ranges of the five bootstraps *)

Lemma golden_score_bounds (m : Measures) :
  0 <= goldenScore (relErrors (ratiosOf m) goldenTargets) <= 100.
Proof.
  split; [apply goldenScore_nonneg|].
  apply goldenScore_le_100. rewrite relErrors_ratiosOf.
  repeat (apply Forall_cons; [apply relError_entry_nonneg; lra|]).
  apply Forall_nil.
Qed.

Lemma uniquenessOf_at_least_5 (s g h : R) : 5 <= uniquenessOf s g h.
Proof.
  pose proof (Rabs_pos (50 - s)). pose proof (Rabs_pos (60 - g)).
  pose proof (Rabs_pos (70 - h)).
  unfold uniquenessOf, clamp, Rmin, Rmax.
  destruct (Rle_dec 1 _); destruct (Rle_dec 10 _); lra.
Qed.

Lemma computeOverall_fields (s g fw ed : R) :
  0 <= s -> 0 <= g ->
  let o := computeOverall s g fw ed in
  20 <= harmony o <= 100
  /\ (exists v, overall o = Num v /\ 4 <= v <= 10)
  /\ 5 <= uniqueness o <= 10.
Proof.
  intros Hs Hg. cbn zeta. rewrite computeOverall_unfold. cbn zeta.
  cbn [harmony overall uniqueness].
  set (h := harmonyOf s g (fst (eyeSpacingOf fw ed))).
  pose proof (harmonyOf_bounds s g (fst (eyeSpacingOf fw ed))) as Hh. fold h in Hh.
  pose proof (uniquenessOf_bounds s g h) as Hu.
  pose proof (uniquenessOf_at_least_5 s g h) as Hu5.
  split; [|split].
  - assert (Hb : IZR 2000 <= h * 100 <= IZR 10000) by lra.
    apply round2_bounds in Hb. lra.
  - destruct (overallOf_nonneg s g h) as [v [-> Hv]].
    { apply weightedOf_nonneg; lra. }
    cbn. eexists; split; [reflexivity|].
    assert (Hb : IZR 40 <= v * 10 <= IZR 100) by lra.
    apply round1_bounds in Hb. lra.
  - assert (Hb : IZR 50 <= uniquenessOf s g h * 10 <= IZR 100) by lra.
    apply round1_bounds in Hb. lra.
Qed.

Section RangedClosures.
Variables (useW useH : R) (baseLm : list LM.t) (sigma : R).
Hypothesis Hlen : (454 < List.length baseLm)%nat.

Lemma jittered_long (g : Rng) :
  (454 < List.length (fst (jitterLandmarks baseLm sigma g)))%nat.
Proof. now rewrite jitterLandmarks_length. Qed.

Lemma symCalc_ranged : ranged (symCalc baseLm sigma) 0 100.
Proof.
  intros g. unfold symCalc. pose proof (jittered_long g) as Hl.
  destruct (jitterLandmarks baseLm sigma g) as [lm g']. cbn [fst] in Hl.
  destruct (calcSymmetryScore_bounded lm (pairsDefined_of_length lm Hl))
    as [v [E Hv]].
  rewrite E. cbn. eauto.
Qed.

Lemma goldCalc_ranged : ranged (goldCalc useW useH baseLm sigma) 0 100.
Proof.
  intros g. unfold goldCalc. pose proof (jittered_long g) as Hl.
  destruct (jitterLandmarks baseLm sigma g) as [lm g']. cbn [fst] in Hl.
  destruct (measure_defined useW useH lm Hl) as [m Em].
  rewrite (analyzeGolden_unfold _ _ _ _ Em). cbn.
  do 2 eexists. split; [reflexivity|]. apply golden_score_bounds.
Qed.

Lemma overallCalc_ranged (field : OverallOut -> number) (lo hi : R) :
  (forall s g fw ed, 0 <= s -> 0 <= g ->
     exists v, field (computeOverall s g fw ed) = Num v /\ lo <= v <= hi) ->
  ranged (overallCalc useW useH baseLm sigma field) lo hi.
Proof.
  intros Hfield g. unfold overallCalc. pose proof (jittered_long g) as Hl.
  destruct (jitterLandmarks baseLm sigma g) as [lm g']. cbn [fst] in Hl.
  destruct (measure_defined useW useH lm Hl) as [m Em].
  destruct (calcSymmetryScore_bounded lm (pairsDefined_of_length lm Hl))
    as [s [Es Hs]].
  rewrite (analyzeGolden_unfold _ _ _ _ Em), Es.
  cbn [obind score faceWidth eyeDist].
  destruct (Hfield s (goldenScore (relErrors (ratiosOf m) goldenTargets))
              (m_faceWidth m) (m_eyeDist m)) as [v [Ev Hv]];
    [lra | apply goldenScore_nonneg |].
  rewrite Ev. eauto.
Qed.
End RangedClosures.

(** X15.  On a landmark list that holds the anatomical indices, for every
    jitter amplitude, every random source and every [repeats >= 1], the
    five bootstraps of [analyze] return real statistics: the mean lies in
    [0,100] for symmetry and golden, [20,100] for harmony, [4,10] for
    overall and [5,10] for originality, and the standard deviation is at
    most the width of that range. *)
Theorem bootstrap_ranges
  (useW useH : R) (baseLm : list LM.t) (sigma : R) (repeats : nat) (g : Rng) :
  (1 <= repeats)%nat ->
  (454 < List.length baseLm)%nat ->
  returnsWithin (symCI baseLm sigma repeats) g 0 100
  /\ returnsWithin (goldCI useW useH baseLm sigma repeats) g 0 100
  /\ returnsWithin (harmCI useW useH baseLm sigma repeats) g 20 100
  /\ returnsWithin (overallCI useW useH baseLm sigma repeats) g 4 10
  /\ returnsWithin (uniqCI useW useH baseLm sigma repeats) g 5 10.
Proof.
  intros Hrep Hlen.
  unfold returnsWithin, symCI, goldCI, harmCI, overallCI, uniqCI.
  repeat split; apply withUncertainty_ranged; try exact Hrep.
  - now apply symCalc_ranged.
  - now apply goldCalc_ranged.
  - apply overallCalc_ranged; [exact Hlen|]. intros s g0 fw ed Hs Hg.
    destruct (computeOverall_fields s g0 fw ed Hs Hg) as [H _]. eauto.
  - apply overallCalc_ranged; [exact Hlen|]. intros s g0 fw ed Hs Hg.
    destruct (computeOverall_fields s g0 fw ed Hs Hg) as [_ [H _]]. exact H.
  - apply overallCalc_ranged; [exact Hlen|]. intros s g0 fw ed Hs Hg.
    destruct (computeOverall_fields s g0 fw ed Hs Hg) as [_ [_ H]]. eauto.
Qed.

Lemma bootstrap_ranges_witness :
  returnsWithin
    (symCI idealFace METHODOLOGY.uncertainty.jitterSigma
       METHODOLOGY.uncertainty.repeats) zeroRng 0 100.
Proof.
  destruct (bootstrap_ranges 800 880 idealFace METHODOLOGY.uncertainty.jitterSigma
              METHODOLOGY.uncertainty.repeats zeroRng) as [H _].
  - unfold METHODOLOGY.uncertainty.repeats. lia.
  - rewrite length_idealFace. lia.
  - exact H.
Defined.

(** *** Edge cases of the bootstraps *)

Lemma withUncertainty_zero (calc : Calc) (g : Rng) :
  withUncertainty calc 0 g = Some ({| mean := NaN; sd := NaN; ci95 := NaN |}, g).
Proof. reflexivity. Qed.

Lemma withUncertainty_throws (calc : Calc) (repeats : nat) (g : Rng) :
  (1 <= repeats)%nat -> (forall g, calc g = None) ->
  withUncertainty calc repeats g = None.
Proof.
  intros Hrep Hnone. destruct repeats as [|n]; [lia|].
  unfold withUncertainty. now rewrite collect_throws.
Qed.

Section ShortList.
Variables (useW useH : R) (baseLm : list LM.t) (sigma : R).
Hypothesis Hshort : (List.length baseLm <= 454)%nat.

Lemma jittered_short (g : Rng) :
  (List.length (fst (jitterLandmarks baseLm sigma g)) <= 454)%nat.
Proof. now rewrite jitterLandmarks_length. Qed.

Lemma symCalc_throws (g : Rng) : symCalc baseLm sigma g = None.
Proof.
  unfold symCalc. pose proof (jittered_short g) as Hl.
  destruct (jitterLandmarks baseLm sigma g) as [lm g']. cbn [fst] in Hl.
  now rewrite calcSymmetryScore_short.
Qed.

Lemma goldCalc_throws (g : Rng) : goldCalc useW useH baseLm sigma g = None.
Proof.
  unfold goldCalc, analyzeGolden. pose proof (jittered_short g) as Hl.
  destruct (jitterLandmarks baseLm sigma g) as [lm g']. cbn [fst] in Hl.
  now rewrite measure_short.
Qed.

Lemma overallCalc_throws (field : OverallOut -> number) (g : Rng) :
  overallCalc useW useH baseLm sigma field g = None.
Proof.
  unfold overallCalc, analyzeGolden. pose proof (jittered_short g) as Hl.
  destruct (jitterLandmarks baseLm sigma g) as [lm g']. cbn [fst] in Hl.
  now rewrite measure_short.
Qed.
End ShortList.

(** X16.  With [repeats = 0] each bootstrap evaluates nothing and returns
    [NaN] for mean, standard deviation and [ci95] (an empty sample); on a
    landmark list too short to hold index 454 each bootstrap throws for
    every [repeats >= 1], whatever the amplitude and the random source. *)
Theorem bootstrap_edge_cases
  (useW useH : R) (baseLm : list LM.t) (sigma : R) (repeats : nat) (g : Rng) :
  Forall (fun ci => ci g = Some ({| mean := NaN; sd := NaN; ci95 := NaN |}, g))
         (bootstraps useW useH baseLm sigma 0)
  /\ ((List.length baseLm <= 454)%nat -> (1 <= repeats)%nat ->
      Forall (fun ci => ci g = None) (bootstraps useW useH baseLm sigma repeats)).
Proof.
  unfold bootstraps, symCI, goldCI, harmCI, overallCI, uniqCI. split.
  - repeat (apply Forall_cons; [apply withUncertainty_zero|]). apply Forall_nil.
  - intros Hshort Hrep.
    repeat (apply Forall_cons;
            [apply withUncertainty_throws; [exact Hrep|]; intros g0;
             first [ now apply symCalc_throws
                   | now apply goldCalc_throws
                   | now apply overallCalc_throws ] |]).
    apply Forall_nil.
Qed.

Lemma bootstrap_edge_cases_witness :
  Forall (fun ci => ci zeroRng = None) (bootstraps 800 880 [] 0.003 40).
Proof.
  destruct (bootstrap_edge_cases 800 880 [] 0.003 40 zeroRng) as [_ H].
  apply H; cbn; lia.
Defined.

(** *** The crop rectangle *)

Lemma clamp_le_hi (v lo hi : R) : clamp v lo hi <= hi.
Proof. unfold clamp. apply Rmin_l. Qed.

Lemma Math_hypot_pos (a b : R) : a <> 0 \/ b <> 0 -> 0 < Math_hypot a b.
Proof.
  intros H. unfold Math_hypot. apply sqrt_lt_R0.
  destruct H as [H|H].
  - assert (0 < a * a) by (apply Rsqr_pos_lt; exact H). nra.
  - assert (0 < b * b) by (apply Rsqr_pos_lt; exact H). nra.
Qed.

Lemma euclid_pos (p q : R * R) : p <> q -> 0 < euclid p q.
Proof.
  intros H. unfold euclid. apply Math_hypot_pos.
  destruct p as [a b], q as [c d]. cbn [fst snd].
  destruct (Req_dec_T a c) as [->|Hac]; [|left; lra].
  right. intros Hbd. apply H. f_equal. lra.
Qed.

Lemma cropRect_dims (w h : R) (eyeL eyeR : R * R) :
  let c := cropRect w h eyeL eyeR in
  let size := euclid eyeR eyeL * 5.0 in
  crop_bw c = size /\ crop_bh c = size * 1.1
  /\ crop_x c = clamp ((fst eyeL + fst eyeR) / 2 - size / 2) 0 (w - size)
  /\ crop_y c = clamp ((snd eyeL + snd eyeR) / 2 - size * 0.6) 0 (h - size * 1.1)
  /\ canvas_height c
     = toUnsignedLong
         (n_lift1 (fun q => Math_round (800 * q)) (n_quot (size * 1.1) size)).
Proof.
  cbn zeta. unfold cropRect. cbn zeta.
  cbn [crop_bw crop_bh crop_x crop_y canvas_height].
  change (Math_hypot (fst eyeR - fst eyeL) (snd eyeR - snd eyeL))
    with (euclid eyeR eyeL).
  set (size := euclid eyeR eyeL * 5.0).
  set (x := clamp _ 0 (w - size)). set (y := clamp _ 0 (h - size * 1.1)).
  pose proof (clamp_le_hi ((fst eyeL + fst eyeR) / 2 - size / 2) 0 (w - size)) as Hx.
  pose proof (clamp_le_hi ((snd eyeL + snd eyeR) / 2 - size * 0.6) 0
                (h - size * 1.1)) as Hy.
  fold x in Hx. fold y in Hy.
  assert (Ew : Rmin (w - x) size = size) by (apply Rmin_right; lra).
  assert (Eh : Rmin (h - y) (size * 1.1) = size * 1.1) by (apply Rmin_right; lra).
  rewrite Ew, Eh. repeat split.
Qed.

Lemma toUnsignedLong_IZR (k : Z) :
  (0 <= k < 2 ^ 32)%Z -> toUnsignedLong (Num (IZR k)) = k.
Proof.
  intros Hk. unfold toUnsignedLong.
  destruct (Rle_dec 0 (IZR k)) as [_|Hn].
  - rewrite ZfloorZ. now apply Z.mod_small.
  - exfalso. apply Hn. apply IZR_le. lia.
Qed.

(** X17.  The size of the canvas that [alignAndCrop] returns: it is 800
    wide, and 880 high whenever the two eye points differ, whatever the
    image size and the place of the eyes; when the two eye points coincide
    the quotient [bh / bw] is [0 / 0] and the canvas has height 0. *)
Theorem cropRect_canvas_size (w h : R) (eyeL eyeR : R * R) :
  let c := cropRect w h eyeL eyeR in
  canvas_width c = 800%Z
  /\ (eyeL <> eyeR -> canvas_height c = 880%Z)
  /\ (eyeL = eyeR -> canvas_height c = 0%Z).
Proof.
  cbn zeta.
  destruct (cropRect_dims w h eyeL eyeR) as [_ [_ [_ [_ Hc]]]].
  rewrite Hc.
  split; [|split].
  - unfold cropRect. cbn [canvas_width]. apply (toUnsignedLong_IZR 800). lia.
  - intros Hne.
    assert (Hd : 0 < euclid eyeR eyeL) by (apply euclid_pos; congruence).
    unfold n_quot. destruct (Req_dec_T (euclid eyeR eyeL * 5.0) 0); [lra|].
    cbn [n_lift1].
    assert (Eq : euclid eyeR eyeL * 5.0 * 1.1 / (euclid eyeR eyeL * 5.0) = 1.1).
    { unfold Rdiv. rewrite (Rmult_comm (euclid eyeR eyeL * 5.0) 1.1).
      rewrite Rmult_assoc, Rinv_r by lra. ring. }
    rewrite Eq. replace (800 * 1.1) with (IZR 880) by lra.
    rewrite Math_round_IZR. apply toUnsignedLong_IZR. lia.
  - intros ->. rewrite euclid_self. unfold n_quot.
    destruct (Req_dec_T (0 * 5.0) 0); [reflexivity|lra].
Qed.

Lemma cropRect_canvas_size_witness :
  canvas_height (cropRect 640 480 (300, 200) (340, 200)) = 880%Z.
Proof.
  destruct (cropRect_canvas_size 640 480 (300, 200) (340, 200)) as [_ [H _]].
  apply H. intros E. injection E as E. lra.
Defined.

(** X18.  Where the crop rectangle lies: its right and bottom edges never
    pass the image, but its left edge is inside the image only when the
    rectangle is not wider than the image, and its top edge only when it is
    not higher; otherwise [clamp] is called with its bounds crossed and
    returns the negative upper bound [w - size] (or [h - 1.1 size]). *)
Theorem cropRect_placement (w h : R) (eyeL eyeR : R * R) :
  let c := cropRect w h eyeL eyeR in
  let size := 5 * euclid eyeR eyeL in
  crop_x c + crop_bw c <= w
  /\ crop_y c + crop_bh c <= h
  /\ (0 <= crop_x c <-> size <= w)
  /\ (0 <= crop_y c <-> 1.1 * size <= h)
  /\ (w < size -> crop_x c = w - size)
  /\ (h < 1.1 * size -> crop_y c = h - 1.1 * size).
Proof.
  cbn zeta.
  destruct (cropRect_dims w h eyeL eyeR) as [Hw [Hh [Hx [Hy _]]]].
  rewrite Hw, Hh, Hx, Hy.
  set (size := euclid eyeR eyeL * 5.0).
  replace (5 * euclid eyeR eyeL) with size by (unfold size; lra).
  set (vx := (fst eyeL + fst eyeR) / 2 - size / 2).
  set (vy := (snd eyeL + snd eyeR) / 2 - size * 0.6).
  unfold clamp, Rmin, Rmax.
  destruct (Rle_dec 0 vx); destruct (Rle_dec 0 vy);
    repeat destruct (Rle_dec _ _);
    repeat split; intros; lra.
Qed.

(** *** Quality checks *)

Lemma flat_map_nil {A B : Type} (l : list A) :
  flat_map (fun _ : A => @nil B) l = [].
Proof. induction l; [reflexivity | exact IHl]. Qed.

Lemma interior_small (w h : nat) : (w < 3 \/ h < 3)%nat -> interior w h = [].
Proof.
  intros [H|H]; unfold interior.
  - replace (w - 2)%nat with 0%nat by lia. cbn [seq map]. apply flat_map_nil.
  - replace (h - 2)%nat with 0%nat by lia. reflexivity.
Qed.

Lemma interior_In (w h x y : nat) :
  In (x, y) (interior w h) -> (1 <= x <= w - 2 /\ 1 <= y <= h - 2)%nat.
Proof.
  unfold interior. intros H. apply in_flat_map in H.
  destruct H as [y' [Hy H]]. apply in_map_iff in H.
  destruct H as [x' [E Hx]]. injection E as -> ->.
  apply in_seq in Hx. apply in_seq in Hy. lia.
Qed.

Lemma interior_nonempty (w h : nat) :
  (3 <= w)%nat -> (3 <= h)%nat -> interior w h <> [].
Proof.
  intros Hw Hh E.
  assert (Hin : In (1%nat, 1%nat) (interior w h)).
  { unfold interior. apply in_flat_map. exists 1%nat. split.
    - apply in_seq. lia.
    - apply in_map_iff. exists 1%nat. split; [reflexivity|]. apply in_seq. lia. }
  rewrite E in Hin. exact Hin.
Qed.

Lemma byteAt_in_range (d : list Z) (i : nat) :
  (i < List.length d)%nat -> exists b, nth_error d i = Some b /\ byteAt d i = Num (IZR b).
Proof.
  intros H. unfold byteAt. destruct (nth_error d i) as [b|] eqn:E.
  - eauto.
  - apply nth_error_None in E. lia.
Qed.

(** On a buffer of the right length every gradient is a real, not negative. *)
Lemma gradAt_real (d : list Z) (w h x y : nat) :
  List.length d = (4 * w * h)%nat ->
  (1 <= x <= w - 2)%nat -> (1 <= y <= h - 2)%nat ->
  exists r, gradAt d w x y = Num r /\ 0 <= r.
Proof.
  intros Hlen Hx Hy. unfold gradAt. cbn zeta.
  assert (Hi : ((y * w + x) * 4 < List.length d)%nat) by (rewrite Hlen; nia).
  destruct (byteAt_in_range d ((y * w + x) * 4 + 0)) as [a [_ ->]]; [lia|].
  destruct (byteAt_in_range d ((y * w + x) * 4 - 4)) as [b [_ ->]]; [lia|].
  destruct (byteAt_in_range d ((y * w + x) * 4 - w * 4)) as [c [_ ->]]; [lia|].
  cbn. eexists. split; [reflexivity|].
  pose proof (Rabs_pos (IZR a - IZR b)). pose proof (Rabs_pos (IZR a - IZR c)). lra.
Qed.

Lemma reals_of_numbers (P : R -> Prop) (l : list number) :
  Forall (fun v => exists r, v = Num r /\ P r) l ->
  exists rs, l = map Num rs /\ Forall P rs.
Proof.
  induction 1 as [|v l [r [-> Hr]] _ [rs [-> Hrs]]].
  - exists []. split; [reflexivity | constructor].
  - exists (r :: rs). split; [reflexivity | now constructor].
Qed.

Lemma gradients_real (img : ImageData) :
  List.length (data img) = (4 * width img * height img)%nat ->
  exists gs, gradients img = map Num gs /\ Forall (fun g => 0 <= g) gs.
Proof.
  intros Hlen. apply reals_of_numbers. unfold gradients.
  apply Forall_map, Forall_forall. intros [x y] Hin. cbn [fst snd].
  apply interior_In in Hin. destruct Hin as [Hx Hy].
  now apply (gradAt_real _ _ (height img)).
Qed.

Lemma gradSum2_reals (gs : list R) (a : R) :
  fold_left (fun a g => n_add a (n_mul g g)) (map Num gs) (Num a)
  = Num (a + sum (map (fun g => g * g) gs)).
Proof.
  revert a. induction gs as [|g gs IH]; intros a.
  - cbn. f_equal. unfold sum. cbn. ring.
  - cbn [map fold_left]. cbn [n_add n_mul n_lift2]. rewrite IH, sum_cons.
    f_equal. ring.
Qed.

(** The two inequalities behind [sum2 / n >= mean * mean]. *)
Lemma cross_term (g : R) (l : list R) :
  2 * g * sum l <= INR (List.length l) * (g * g) + sum (map (fun t => t * t) l).
Proof.
  induction l as [|t l IH].
  - unfold sum. cbn. lra.
  - cbn [map List.length]. rewrite !sum_cons, S_INR.
    pose proof (Rle_0_sqr (g - t)) as Hs. unfold Rsqr in Hs. lra.
Qed.

Lemma sum_squared_le (l : list R) :
  sum l * sum l <= INR (List.length l) * sum (map (fun t => t * t) l).
Proof.
  induction l as [|g l IH].
  - unfold sum. cbn. lra.
  - cbn [map List.length]. rewrite !sum_cons, S_INR.
    pose proof (cross_term g l) as Hc. lra.
Qed.

(** The variance computed from real gradients. *)
Lemma variance_of_reals (gs : list R) :
  gs <> [] ->
  let n := List.length gs in
  let mean := n_div_length (gradSum (map Num gs)) n in
  exists v,
    n_sub (n_div_length (gradSum2 (map Num gs)) n) (n_mul mean mean) = Num v
    /\ v = sum (map (fun g => g * g) gs) / INR n - sum gs / INR n * (sum gs / INR n)
    /\ 0 <= v.
Proof.
  intros Hne. cbn zeta.
  unfold gradSum, gradSum2. rewrite n_sum_reals_acc, gradSum2_reals.
  remember (List.length gs) as n eqn:En.
  assert (Hn : 0 < INR n).
  { apply lt_0_INR. subst n. destruct gs; [congruence|cbn; lia]. }
  assert (Hd : forall a, n_div_length (Num (0 + a)) n = Num (a / INR n)).
  { intros a. destruct n as [|k]; [cbn in Hn; lra|].
    cbn [n_div_length n_lift1]. f_equal. field. lra. }
  rewrite !Hd. cbn [n_mul n_sub n_lift2].
  eexists. split; [reflexivity|]. split; [reflexivity|].
  pose proof (sum_squared_le gs) as Hcs. rewrite <- En in Hcs.
  set (S1 := sum gs) in *. set (S2 := sum (map (fun g => g * g) gs)) in *.
  assert (E : S2 / INR n - S1 / INR n * (S1 / INR n)
              = (INR n * S2 - S1 * S1) * (/ INR n * / INR n)).
  { field. lra. }
  rewrite E. apply Rmult_le_pos; [lra|].
  apply Rmult_le_pos; left; now apply Rinv_0_lt_compat.
Qed.

(** X19.  An image with fewer than three columns or rows has no interior
    pixel: the variance is [0 / 0], that is [NaN], and the sharpness test
    fails.  An empty pixel buffer has luminance [NaN] and fails the
    exposure test. *)
Theorem qualityChecks_degenerate (img : ImageData) :
  ((width img < 3 \/ height img < 3)%nat ->
   variance (qualityChecks img) = NaN /\ blurOK (qualityChecks img) = false)
  /\ (data img = [] ->
      luminance (qualityChecks img) = NaN /\ exposureOK (qualityChecks img) = false).
Proof.
  split.
  - intros H. unfold qualityChecks, gradients.
    rewrite (interior_small _ _ H). split; reflexivity.
  - intros H. unfold qualityChecks. rewrite H. split; reflexivity.
Qed.

Lemma qualityChecks_degenerate_witness :
  variance (qualityChecks (mkImageData [10; 20; 30; 255]%Z 1 1)) = NaN
  /\ luminance (qualityChecks (mkImageData [] 0 0)) = NaN.
Proof.
  destruct (qualityChecks_degenerate (mkImageData [10; 20; 30; 255]%Z 1 1)) as [H _].
  destruct (qualityChecks_degenerate (mkImageData [] 0 0)) as [_ H'].
  split; [apply H; cbn; lia | apply H'; reflexivity].
Defined.

Lemma fold_left_via_map {A B C : Type} (f : A -> C -> A) (h : B -> C)
      (l : list B) (a : A) :
  fold_left (fun a i => f a (h i)) l a = fold_left f (map h l) a.
Proof. revert a. induction l as [|b l IH]; intros a; [reflexivity | apply IH]. Qed.

Lemma redIndices_In (len i : nat) : In i (redIndices len) -> (i < len)%nat.
Proof.
  unfold redIndices. intros H. apply in_map_iff in H.
  destruct H as [k [<- Hk]]. apply in_seq in Hk.
  pose proof (Nat.div_mod_eq (len + 3) 4) as Hd.
  pose proof (Nat.mod_upper_bound (len + 3) 4 ltac:(lia)). lia.
Qed.

Lemma redIndices_length (k : nat) : List.length (redIndices (4 * k)) = k.
Proof.
  unfold redIndices. rewrite length_map, length_seq.
  pose proof (Nat.div_mod_eq (4 * k + 3) 4) as Hd.
  pose proof (Nat.mod_upper_bound (4 * k + 3) 4 ltac:(lia)). lia.
Qed.

(** The luminance of a buffer of [4 * k] bytes, [k >= 1], whose bytes lie
    between [lo] and [hi]. *)
Lemma luminance_between (d : list Z) (k : nat) (lo hi : R) :
  List.length d = (4 * k)%nat -> (1 <= k)%nat ->
  Forall (fun b => lo <= IZR b <= hi) d ->
  exists l,
    n_div_quarter (lumSum d) (List.length d) = Num l /\ lo <= l <= hi.
Proof.
  intros Hlen Hk Hall.
  destruct (reals_of_numbers (fun r => lo <= r <= hi)
              (map (byteAt d) (redIndices (List.length d)))) as [rs [E Hrs]].
  { apply Forall_map, Forall_forall. intros i Hi.
    apply redIndices_In in Hi.
    destruct (byteAt_in_range d i Hi) as [b [Eb ->]].
    exists (IZR b). split; [reflexivity|].
    rewrite Forall_forall in Hall. apply Hall. now apply nth_error_In in Eb. }
  assert (Hn : List.length rs = k).
  { rewrite <- (length_map Num rs), <- E, length_map, Hlen.
    apply redIndices_length. }
  unfold lumSum. rewrite fold_left_via_map, E, n_sum_reals_acc.
  rewrite Hlen. destruct (4 * k)%nat as [|j] eqn:Ej; [lia|]. rewrite <- Ej.
  cbn [n_div_quarter n_lift1].
  assert (HK : 0 < INR k) by (apply lt_0_INR; lia).
  assert (E4 : INR (4 * k) / 4 = INR k).
  { rewrite mult_INR. simpl. field. }
  rewrite Ej. cbn [n_div_quarter n_lift1]. rewrite <- Ej, E4.
  eexists. split; [reflexivity|].
  assert (H1 : lo * INR k <= sum rs).
  { rewrite <- Hn. apply sum_lower.
    eapply Forall_impl; [|exact Hrs]. intros r Hr. apply Hr. }
  assert (H2 : sum rs <= hi * INR k).
  { rewrite <- Hn. apply sum_upper.
    eapply Forall_impl; [|exact Hrs]. intros r Hr. apply Hr. }
  split.
  - apply (Rmult_le_reg_r (INR k)); [exact HK|].
    replace ((0 + sum rs) / INR k * INR k) with (sum rs) by (field; lra). exact H1.
  - apply (Rmult_le_reg_r (INR k)); [exact HK|].
    replace ((0 + sum rs) / INR k * INR k) with (sum rs) by (field; lra). exact H2.
Qed.

(** X20.  On an image of at least 3 by 3 pixels whose buffer has four bytes
    per pixel, each in [0,255], the checks compute real numbers: the
    variance is not negative and the luminance lies in [0,255]. *)
Theorem qualityChecks_wellformed (img : ImageData) :
  List.length (data img) = (4 * width img * height img)%nat ->
  (3 <= width img)%nat -> (3 <= height img)%nat ->
  Forall (fun b => 0 <= b <= 255)%Z (data img) ->
  exists v l,
    variance (qualityChecks img) = Num v /\ 0 <= v
    /\ luminance (qualityChecks img) = Num l /\ 0 <= l <= 255.
Proof.
  intros Hlen Hw Hh Hbytes.
  destruct (gradients_real img Hlen) as [gs [Eg _]].
  assert (Hne : gs <> []).
  { intros ->. pose proof (interior_nonempty _ _ Hw Hh) as Hi.
    unfold gradients in Eg. apply map_eq_nil in Eg. contradiction. }
  destruct (variance_of_reals gs Hne) as [v [Ev [_ Hv]]].
  destruct (luminance_between (data img) (width img * height img) 0 255)
    as [l [El Hl]].
  - rewrite Hlen. lia.
  - nia.
  - eapply Forall_impl; [|exact Hbytes]. intros b [H0 H255].
    split; [apply (IZR_le 0) | apply (IZR_le _ 255)]; assumption.
  - exists v, l. unfold qualityChecks.
    cbn [variance luminance]. rewrite Eg, length_map.
    split; [exact Ev|]. split; [exact Hv|]. split; [exact El | exact Hl].
Qed.

Lemma qualityChecks_wellformed_witness :
  exists v l,
    variance (qualityChecks (mkImageData (repeat 128%Z 36) 3 3)) = Num v /\ 0 <= v
    /\ luminance (qualityChecks (mkImageData (repeat 128%Z 36) 3 3)) = Num l
    /\ 0 <= l <= 255.
Proof.
  apply (qualityChecks_wellformed (mkImageData (repeat 128%Z 36) 3 3)).
  - reflexivity.
  - cbn. lia.
  - cbn. lia.
  - apply Forall_forall. intros b Hb. apply repeat_spec in Hb. subst. lia.
Defined.

(** X21.  A perfectly flat image (every byte equal to [c]) of at least 3 by
    3 pixels has variance [0], so it never passes the sharpness test; its
    luminance is [c], and it passes the exposure test exactly when
    [60 < c < 200]. *)
Theorem qualityChecks_flat (c : Z) (w h : nat) :
  (3 <= w)%nat -> (3 <= h)%nat ->
  let q := qualityChecks (mkImageData (repeat c (4 * w * h)) w h) in
  variance q = Num 0 /\ blurOK q = false
  /\ luminance q = Num (IZR c)
  /\ (exposureOK q = true <-> (60 < c < 200)%Z).
Proof.
  intros Hw Hh. cbn zeta.
  set (img := mkImageData (repeat c (4 * w * h)) w h).
  assert (Hlen : List.length (data img) = (4 * width img * height img)%nat).
  { cbn. now rewrite repeat_length. }
  destruct (reals_of_numbers (fun r => r = 0) (gradients img)) as [gs [Eg Hz]].
  { unfold gradients. apply Forall_map, Forall_forall. intros [x y] Hin.
    cbn [fst snd]. apply interior_In in Hin. destruct Hin as [Hx Hy].
    cbn [width height img] in Hx, Hy. unfold gradAt. cbn zeta. cbn [data width img].
    assert (Hb : forall i, (i < 4 * w * h)%nat ->
                           byteAt (repeat c (4 * w * h)) i = Num (IZR c)).
    { intros i Hi. unfold byteAt. now rewrite nth_error_repeat. }
    rewrite !Hb by nia. cbn. exists 0. split; [|reflexivity].
    f_equal. replace (IZR c - IZR c) with 0 by ring. rewrite Rabs_R0. ring. }
  assert (Hne : gs <> []).
  { intros ->. pose proof (interior_nonempty w h Hw Hh) as Hi.
    unfold gradients in Eg. apply map_eq_nil in Eg. contradiction. }
  destruct (variance_of_reals gs Hne) as [v [Ev [Hv _]]].
  assert (Hv0 : v = 0).
  { rewrite Hv, (sum_zero gs Hz).
    rewrite (sum_zero (map (fun g => g * g) gs)).
    - unfold Rdiv. ring.
    - apply Forall_map. eapply Forall_impl; [|exact Hz].
      cbn beta. intros g ->. ring. }
  destruct (luminance_between (data img) (w * h) (IZR c) (IZR c))
    as [l [El Hl]].
  { cbn. rewrite repeat_length. lia. }
  { nia. }
  { apply Forall_forall. intros b Hb. apply repeat_spec in Hb. subst. lra. }
  assert (Hl' : l = IZR c) by lra. subst l. rewrite Hv0 in Ev.
  unfold qualityChecks. cbn [variance luminance blurOK exposureOK].
  fold img. rewrite Eg, length_map, Ev, El.
  split; [reflexivity|]. split.
  - cbn [n_gt]. apply js_gt_false.
    unfold METHODOLOGY.quality.blurVarMin. lra.
  - split; [reflexivity|]. cbn [n_gt n_lt].
    unfold METHODOLOGY.quality.luminanceMin, METHODOLOGY.quality.luminanceMax.
    rewrite andb_true_iff, js_gt_true, js_lt_true. split.
    + intros [H1 H2]. split; apply lt_IZR; assumption.
    + intros [H1 H2]. split; [apply (IZR_lt 60) | apply (IZR_lt _ 200)]; assumption.
Qed.

Lemma qualityChecks_flat_witness :
  blurOK (qualityChecks (mkImageData (repeat 128%Z (4 * 3 * 3)) 3 3)) = false.
Proof.
  destruct (qualityChecks_flat 128 3 3) as [_ [H _]]; [lia | lia | exact H].
Defined.

(** *** Sorting *)

Lemma insertNum_perm (a : R) (l : list R) : Permutation (insertNum a l) (a :: l).
Proof.
  induction l as [|b l IH]; cbn.
  - apply Permutation_refl.
  - destruct (js_le a b); [apply Permutation_refl|].
    apply perm_trans with (b :: a :: l); [now apply perm_skip | apply perm_swap].
Qed.

Lemma sortNum_perm (l : list R) : Permutation (sortNum l) l.
Proof.
  induction l as [|a l IH]; cbn.
  - apply perm_nil.
  - apply perm_trans with (a :: sortNum l);
      [apply insertNum_perm | now apply perm_skip].
Qed.

Lemma sortNum_length (l : list R) : List.length (sortNum l) = List.length l.
Proof. apply Permutation_length, sortNum_perm. Qed.

Lemma insertNum_sorted (a : R) (l : list R) :
  StronglySorted Rle l -> StronglySorted Rle (insertNum a l).
Proof.
  induction 1 as [|b l Hs IH Hb]; cbn.
  - repeat constructor.
  - destruct (js_le a b) eqn:E.
    + apply js_le_true in E. constructor; [now constructor|].
      constructor; [exact E|].
      eapply Forall_impl; [|exact Hb]. intros c Hc. lra.
    + apply js_le_false in E. constructor; [exact IH|].
      apply Forall_forall. intros c Hc.
      apply (Permutation_in _ (insertNum_perm a l)) in Hc.
      destruct Hc as [<-|Hc]; [lra|].
      rewrite Forall_forall in Hb. now apply Hb.
Qed.

Lemma sortNum_sorted (l : list R) : StronglySorted Rle (sortNum l).
Proof.
  induction l as [|a l IH]; cbn; [constructor | now apply insertNum_sorted].
Qed.

Lemma StronglySorted_app_le (l1 l2 : list R) :
  StronglySorted Rle (l1 ++ l2) ->
  StronglySorted Rle l2 /\ forall x y, In x l1 -> In y l2 -> x <= y.
Proof.
  induction l1 as [|a l1 IH]; cbn; intros H.
  - split; [exact H | intros x y []].
  - apply StronglySorted_inv in H. destruct H as [Hs Ha].
    destruct (IH Hs) as [H2 Hle]. split; [exact H2|].
    intros x y [<-|Hx] Hy.
    + rewrite Forall_forall in Ha. apply Ha, in_or_app. now right.
    + now apply Hle.
Qed.

Lemma count_occ_none (l : list R) (v : R) :
  (forall x, In x l -> x <> v) -> count_occ Req_dec_T l v = 0%nat.
Proof.
  intros H. apply count_occ_not_In. intros Hin. now apply (H v Hin).
Qed.

(** In a sorted list a value held by more than half of the entries sits at
    the middle index. *)
Lemma sorted_majority (s : list R) (v : R) :
  StronglySorted Rle s ->
  (List.length s < 2 * count_occ Req_dec_T s v)%nat ->
  nth (List.length s / 2) s 0 = v.
Proof.
  intros Hs Hc.
  remember (List.length s) as n eqn:En.
  remember (n / 2)%nat as mid eqn:Emid.
  pose proof (count_occ_bound Req_dec_T v s) as Hb. rewrite <- En in Hb.
  pose proof (Nat.div_mod_eq n 2) as Hdm. rewrite <- Emid in Hdm.
  pose proof (Nat.mod_upper_bound n 2 ltac:(lia)) as Hmod.
  assert (Hmid : (mid < List.length s)%nat) by lia.
  destruct (nth_split s 0 Hmid) as [l1 [rest [E Hl1]]].
  remember (nth mid s 0) as a eqn:Ea.
  assert (Hn : n = (mid + S (List.length rest))%nat).
  { rewrite En, E, length_app. cbn [List.length]. lia. }
  assert (Hcount : count_occ Req_dec_T s v
                   = (count_occ Req_dec_T l1 v
                      + count_occ Req_dec_T (a :: rest) v)%nat).
  { rewrite E. apply count_occ_app. }
  rewrite E in Hs. apply StronglySorted_app_le in Hs.
  destruct Hs as [Hs2 Hle]. apply StronglySorted_inv in Hs2.
  destruct Hs2 as [_ Hge]. rewrite Forall_forall in Hge.
  pose proof (count_occ_bound Req_dec_T v l1) as B1.
  pose proof (count_occ_bound Req_dec_T v rest) as B2.
  destruct (Rtotal_order a v) as [Hlt|[Heq|Hgt]]; [|exact Heq|].
  - exfalso.
    rewrite (count_occ_none l1) in Hcount.
    + rewrite count_occ_cons_neq in Hcount by lra. lia.
    + intros x Hx. pose proof (Hle x a Hx (or_introl eq_refl)). lra.
  - exfalso.
    rewrite count_occ_cons_neq in Hcount by lra.
    rewrite (count_occ_none rest) in Hcount.
    + lia.
    + intros x Hx. pose proof (Hge x Hx). lra.
Qed.

(** *** Median of several detections *)

Lemma mapM_length {A B : Type} (f : A -> option B) (l : list A) (bs : list B) :
  mapM f l = Some bs -> List.length bs = List.length l.
Proof.
  revert bs. induction l as [|a l IH]; cbn; intros bs H.
  - now injection H as <-.
  - destruct (f a); [|discriminate]. cbn in H.
    destruct (mapM f l) as [bs'|]; [|discriminate]. cbn in H.
    injection H as <-. cbn. now rewrite (IH bs').
Qed.

Lemma mapM_nth {A B : Type} (f : A -> option B) (l : list A) (bs : list B)
      (i : nat) (b : B) :
  mapM f l = Some bs -> nth_error bs i = Some b ->
  exists a, nth_error l i = Some a /\ f a = Some b.
Proof.
  revert bs i. induction l as [|a l IH]; cbn; intros bs i H Hb.
  - injection H as <-. destruct i; discriminate.
  - destruct (f a) as [b0|] eqn:Ea; [|discriminate]. cbn in H.
    destruct (mapM f l) as [bs'|]; [|discriminate]. cbn in H.
    injection H as <-. destruct i as [|i]; cbn in *.
    + injection Hb as <-. eauto.
    + now apply (IH bs').
Qed.

Lemma mapM_In {A B : Type} (f : A -> option B) (l : list A) (bs : list B) (b : B) :
  mapM f l = Some bs -> In b bs -> exists a, In a l /\ f a = Some b.
Proof.
  intros H Hin. apply In_nth_error in Hin. destruct Hin as [i Hi].
  destruct (mapM_nth f l bs i b H Hi) as [a [Ha Hf]].
  exists a. split; [now apply nth_error_In in Ha | exact Hf].
Qed.

Lemma mapM_fails {A B : Type} (f : A -> option B) (l : list A) (a : A) :
  In a l -> f a = None -> mapM f l = None.
Proof.
  induction l as [|a0 l IH]; cbn; intros Hin Hf; [contradiction|].
  destruct Hin as [->|Hin].
  - now rewrite Hf.
  - destruct (f a0); [|reflexivity]. cbn. now rewrite IH.
Qed.

Lemma mapM_total {A B : Type} (f : A -> option B) (l : list A) :
  (forall a, In a l -> exists b, f a = Some b) -> exists bs, mapM f l = Some bs.
Proof.
  intros H.
  destruct (mapM_Forall f (fun _ => True) l) as [bs [E _]]; [|eauto].
  apply Forall_forall. intros a Ha. destruct (H a Ha) as [b Hb]. eauto.
Qed.

Lemma medianPoint_inv (all : list (list LM.t)) (p : nat) (q : LM.t) :
  medianPoint all p = Some q ->
  exists pts,
    mapM (fun a => at_index a p) all = Some pts
    /\ List.length pts = List.length all
    /\ LM.x q = nth (List.length pts / 2) (sortNum (map LM.x pts)) 0
    /\ LM.y q = nth (List.length pts / 2) (sortNum (map LM.y pts)) 0.
Proof.
  unfold medianPoint. intros H.
  destruct (mapM (fun a => at_index a p) all) as [pts|] eqn:E; [|discriminate].
  cbn in H. injection H as <-. exists pts.
  split; [reflexivity|]. split; [exact (mapM_length _ _ _ E)|].
  cbn [LM.x LM.y]. rewrite !sortNum_length, !length_map. split; reflexivity.
Qed.

Lemma medianLandmarks_nth (all : list (list LM.t)) (med : list LM.t)
      (p : nat) (q : LM.t) :
  medianLandmarks all = Some (Some med) -> nth_error med p = Some q ->
  all <> [] /\ medianPoint all p = Some q.
Proof.
  unfold medianLandmarks. destruct all as [|first rest]; [discriminate|].
  intros H Hq. split; [discriminate|].
  destruct (mapM _ (seq 0 (List.length first))) as [m|] eqn:E; [|discriminate].
  cbn in H. injection H as <-.
  destruct (mapM_nth _ _ _ _ _ E Hq) as [i [Hi Hf]].
  rewrite nth_error_seq in Hi.
  destruct (Nat.ltb p (List.length first)); [|discriminate].
  injection Hi as <-. exact Hf.
Qed.

(** X23.  Each coordinate of a median landmark is a coordinate observed on
    some frame at that index; the abscissa and the ordinate may come from
    two different frames. *)
Theorem median_is_observed
  (all : list (list LM.t)) (med : list LM.t) (p : nat) (q : LM.t) :
  medianLandmarks all = Some (Some med) ->
  nth_error med p = Some q ->
  exists a b pa pb,
    In a all /\ In b all
    /\ at_index a p = Some pa /\ at_index b p = Some pb
    /\ LM.x q = LM.x pa /\ LM.y q = LM.y pb.
Proof.
  intros H Hq.
  destruct (medianLandmarks_nth all med p q H Hq) as [Hne Hp].
  destruct (medianPoint_inv all p q Hp) as [pts [E [Hlen [Hx Hy]]]].
  assert (Hmid : (List.length pts / 2 < List.length pts)%nat).
  { apply Nat.div_lt; [|lia]. rewrite Hlen. destruct all; [congruence|cbn; lia]. }
  assert (Hobs : forall (f : LM.t -> R),
             exists a pa, In a all /\ at_index a p = Some pa
                          /\ nth (List.length pts / 2) (sortNum (map f pts)) 0 = f pa).
  { intros f.
    assert (Hin : In (nth (List.length pts / 2) (sortNum (map f pts)) 0)
                     (map f pts)).
    { apply (Permutation_in _ (sortNum_perm (map f pts))).
      apply nth_In. now rewrite sortNum_length, length_map. }
    apply in_map_iff in Hin. destruct Hin as [pa [Epa Hpa]].
    destruct (mapM_In _ _ _ _ E Hpa) as [a [Ha Hat]].
    exists a, pa. repeat split; [exact Ha | exact Hat | now symmetry]. }
  destruct (Hobs LM.x) as [a [pa [Ha [Hat Ex]]]].
  destruct (Hobs LM.y) as [b [pb [Hb [Hbt Ey]]]].
  exists a, b, pa, pb. repeat split; try assumption; congruence.
Qed.

Lemma median_is_observed_witness :
  exists a b pa pb,
    In a [[LM.mk 1 2 None]; [LM.mk 5 0 None]; [LM.mk 3 9 None]]
    /\ In b [[LM.mk 1 2 None]; [LM.mk 5 0 None]; [LM.mk 3 9 None]]
    /\ at_index a 0 = Some pa /\ at_index b 0 = Some pb
    /\ nth 1 (sortNum [1; 5; 3]) 0 = LM.x pa
    /\ nth 1 (sortNum [2; 0; 9]) 0 = LM.y pb.
Proof.
  pose proof (median_is_observed
                [[LM.mk 1 2 None]; [LM.mk 5 0 None]; [LM.mk 3 9 None]]
                [LM.mk (nth (List.length (sortNum [1; 5; 3]) / 2)
                            (sortNum [1; 5; 3]) 0)
                       (nth (List.length (sortNum [1; 5; 3]) / 2)
                            (sortNum [2; 0; 9]) 0) None]
                0
                (LM.mk (nth (List.length (sortNum [1; 5; 3]) / 2)
                            (sortNum [1; 5; 3]) 0)
                       (nth (List.length (sortNum [1; 5; 3]) / 2)
                            (sortNum [2; 0; 9]) 0) None)
                eq_refl eq_refl) as H.
  cbn [LM.x LM.y] in H. rewrite sortNum_length in H. exact H.
Defined.

(** X24.  The median resists outliers: when more than half of the frames
    agree on the abscissa (or on the ordinate) of a landmark, the median
    landmark has exactly that abscissa (that ordinate), whatever the other
    frames say. *)
Theorem median_majority
  (all : list (list LM.t)) (med : list LM.t) (p : nat) (q : LM.t)
  (pts : list LM.t) (v : R) :
  medianLandmarks all = Some (Some med) ->
  nth_error med p = Some q ->
  mapM (fun a => at_index a p) all = Some pts ->
  ((List.length all < 2 * count_occ Req_dec_T (map LM.x pts) v)%nat -> LM.x q = v)
  /\ ((List.length all < 2 * count_occ Req_dec_T (map LM.y pts) v)%nat -> LM.y q = v).
Proof.
  intros H Hq Hpts.
  destruct (medianLandmarks_nth all med p q H Hq) as [_ Hp].
  destruct (medianPoint_inv all p q Hp) as [pts' [E [Hlen [Hx Hy]]]].
  rewrite Hpts in E. injection E as <-.
  assert (Hmaj : forall (f : LM.t -> R),
             (List.length all < 2 * count_occ Req_dec_T (map f pts) v)%nat ->
             nth (List.length pts / 2) (sortNum (map f pts)) 0 = v).
  { intros f Hc.
    rewrite <- (length_map f pts), <- (sortNum_length (map f pts)).
    apply sorted_majority; [apply sortNum_sorted|].
    rewrite sortNum_length, length_map, Hlen.
    rewrite (proj1 (Permutation_count_occ Req_dec_T _ _)
                   (sortNum_perm (map f pts)) v).
    exact Hc. }
  split; intros Hc; [rewrite Hx | rewrite Hy]; now apply Hmaj.
Qed.

Lemma median_majority_witness :
  nth (List.length (sortNum [1; 5; 1]) / 2) (sortNum [1; 5; 1]) 0 = 1.
Proof.
  destruct (median_majority
              [[LM.mk 1 2 None]; [LM.mk 5 0 None]; [LM.mk 1 9 None]]
              [LM.mk (nth (List.length (sortNum [1; 5; 1]) / 2)
                          (sortNum [1; 5; 1]) 0)
                     (nth (List.length (sortNum [1; 5; 1]) / 2)
                          (sortNum [2; 0; 9]) 0) None]
              0
              (LM.mk (nth (List.length (sortNum [1; 5; 1]) / 2)
                          (sortNum [1; 5; 1]) 0)
                     (nth (List.length (sortNum [1; 5; 1]) / 2)
                          (sortNum [2; 0; 9]) 0) None)
              [LM.mk 1 2 None; LM.mk 5 0 None; LM.mk 1 9 None] 1
              eq_refl eq_refl eq_refl) as [H _].
  apply H. cbn [map LM.x List.length].
  rewrite count_occ_cons_eq by reflexivity.
  rewrite count_occ_cons_neq by lra.
  rewrite count_occ_cons_eq by reflexivity.
  cbn. lia.
Defined.

Lemma detectedFrames_none (W H : R) (ds : list (option (list Keypoint))) :
  Forall (fun d => d = None) ds -> detectedFrames W H ds = [].
Proof.
  induction 1 as [|d ds Hd _ IH]; [reflexivity|].
  subst d. exact IH.
Qed.

Lemma detectedFrames_In (W H : R) (ds : list (option (list Keypoint)))
      (a : list LM.t) :
  In a (detectedFrames W H ds) <->
  exists kps, In (Some kps) ds /\ a = normalizeKeypoints W H kps.
Proof.
  unfold detectedFrames. rewrite in_flat_map. split.
  - intros [[kps|] [Hd Ha]]; [|contradiction].
    destruct Ha as [<-|[]]. eauto.
  - intros [kps [Hd ->]]. exists (Some kps). split; [exact Hd | now left].
Qed.

Lemma normalizeKeypoints_length (W H : R) (kps : list Keypoint) :
  List.length (normalizeKeypoints W H kps) = List.length kps.
Proof. unfold normalizeKeypoints. apply length_map. Qed.

Lemma medianPoint_total (all : list (list LM.t)) (p : nat) :
  Forall (fun a => (p < List.length a)%nat) all ->
  exists q, medianPoint all p = Some q.
Proof.
  intros H.
  destruct (mapM_total (fun a => at_index a p) all) as [pts E].
  { intros a Ha. rewrite Forall_forall in H. apply at_index_defined. now apply H. }
  unfold medianPoint. rewrite E. cbn. eauto.
Qed.

Lemma medianLandmarks_total (all : list (list LM.t)) (n : nat) :
  all <> [] -> Forall (fun a => List.length a = n) all ->
  exists med, medianLandmarks all = Some (Some med) /\ List.length med = n.
Proof.
  intros Hne Hall. destruct all as [|first rest]; [congruence|].
  assert (Hf : List.length first = n) by now inversion Hall.
  unfold medianLandmarks.
  destruct (mapM_total (medianPoint (first :: rest)) (seq 0 (List.length first)))
    as [med E].
  { intros p Hp. apply in_seq in Hp. apply medianPoint_total.
    eapply Forall_impl; [|exact Hall]. cbn beta. intros a Ha. lia. }
  rewrite E. cbn. exists med. split; [reflexivity|].
  apply mapM_length in E. now rewrite E, length_seq.
Qed.

Lemma medianLandmarks_short_frame (first a : list LM.t) (rest : list (list LM.t)) :
  In a rest -> (List.length a < List.length first)%nat ->
  medianLandmarks (first :: rest) = None.
Proof.
  intros Hin Hlt. unfold medianLandmarks.
  rewrite (mapM_fails (medianPoint (first :: rest)) _ (List.length a));
    [reflexivity | apply in_seq; lia |].
  unfold medianPoint.
  rewrite (mapM_fails (fun a0 => at_index a0 (List.length a)) _ a);
    [reflexivity | now right |].
  apply at_index_short. lia.
Qed.

(** X22.  [estimateStableLandmarks] answers [null] when no frame shows a
    face; when at least one does and all detected frames have the same
    number [n] of keypoints, it returns [n] median landmarks; and it throws
    when a later frame has fewer keypoints than the first detected one. *)
Theorem estimateStableLandmarks_result
  (videoWidth videoHeight : R) (detections : list (option (list Keypoint))) :
  (Forall (fun d => d = None) detections ->
   estimateStableLandmarks videoWidth videoHeight detections = Some None)
  /\ (forall n,
        (exists kps, In (Some kps) detections) ->
        (forall kps, In (Some kps) detections -> List.length kps = n) ->
        exists med,
          estimateStableLandmarks videoWidth videoHeight detections
          = Some (Some med)
          /\ List.length med = n)
  /\ (forall pre k1 post k2,
        detections = pre ++ Some k1 :: post ->
        Forall (fun d => d = None) pre ->
        In (Some k2) post ->
        (List.length k2 < List.length k1)%nat ->
        estimateStableLandmarks videoWidth videoHeight detections = None).
Proof.
  change (estimateStableLandmarks videoWidth videoHeight detections)
    with (medianLandmarks (detectedFrames videoWidth videoHeight detections)).
  split; [|split].
  - intros H. now rewrite detectedFrames_none.
  - intros n [kps Hk] Hn. apply medianLandmarks_total.
    + intros E.
      assert (Hin : In (normalizeKeypoints videoWidth videoHeight kps)
                       (detectedFrames videoWidth videoHeight detections)).
      { apply detectedFrames_In. eauto. }
      rewrite E in Hin. exact Hin.
    + apply Forall_forall. intros a Ha. apply detectedFrames_In in Ha.
      destruct Ha as [k [Hk' ->]]. rewrite normalizeKeypoints_length. now apply Hn.
  - intros pre k1 post k2 -> Hpre Hin Hlt.
    unfold detectedFrames. rewrite flat_map_app. cbn [flat_map].
    fold (detectedFrames videoWidth videoHeight pre).
    fold (detectedFrames videoWidth videoHeight post).
    rewrite (detectedFrames_none _ _ pre Hpre). cbn [app].
    apply (medianLandmarks_short_frame _
             (normalizeKeypoints videoWidth videoHeight k2)).
    + apply detectedFrames_In. eauto.
    + now rewrite !normalizeKeypoints_length.
Qed.

Lemma estimateStableLandmarks_result_witness :
  estimateStableLandmarks 640 480 [None; None; None] = Some None
  /\ estimateStableLandmarks 640 480
       [None; Some [mkKeypoint 1 2; mkKeypoint 3 4]; Some [mkKeypoint 1 2]] = None.
Proof.
  split.
  - apply (estimateStableLandmarks_result 640 480 [None; None; None]).
    repeat constructor.
  - destruct (estimateStableLandmarks_result 640 480
                [None; Some [mkKeypoint 1 2; mkKeypoint 3 4]; Some [mkKeypoint 1 2]])
      as [_ [_ H]].
    apply (H [None] [mkKeypoint 1 2; mkKeypoint 3 4] [Some [mkKeypoint 1 2]]
             [mkKeypoint 1 2]).
    + reflexivity.
    + repeat constructor.
    + now left.
    + cbn. lia.
Defined.
